(** * K-mer feature extraction: a shallow embedding of [KMerTransformers.py]

    The three scikit-learn transformers of the repository are embedded as
    pure functions:

    - [KMerTransformer]: exact k-mer counting over the vocabulary of all
      length-[k] words on the alphabet A, C, G, T;
    - [KGroupKMerTransformer]: counting by base composition;
    - [KGroupColumnPruner]: dropping the columns of a table that are never
      strictly positive.

    Python integers are [Z].  Strings are [string], one [ascii] per
    character.  A Python exception is a value of [exn] carried by the
    [result] monad.  The numbers held by a frequency row or by a table are
    Python ints in raw mode and floats in normalized mode; both are read
    here as exact rationals ([Qc], canonical fractions with Leibniz
    equality), an int [n] being [Qc_of_Z n] and the quotient [1/len(seq)]
    the exact fraction.  Progress bars and the [verbose] printing do not
    affect any returned value and are left out; the [verbose] attribute
    itself is kept. *)

From Stdlib Require Import ZArith QArith Qcanon Ascii String List.
From stdpp Require Import base numbers list strings sorting gmap.

Local Open Scope Z_scope.

(** ** Python runtime fragments used by the source *)

Module Py.

(** The exceptions the modelled code can raise. *)
Inductive exn : Type :=
| KeyError
| ValueError
| ZeroDivisionError
| AttributeError.

Inductive result (A : Type) : Type :=
| Ok (a : A)
| Raise (e : exn).
Arguments Ok {A} a.
Arguments Raise {A} e.

Global Instance exn_eq_dec : EqDecision exn.
Proof. solve_decision. Defined.
Global Instance result_eq_dec `{EqDecision A} : EqDecision (result A).
Proof. solve_decision. Defined.

Definition bind {A B} (m : result A) (f : A → result B) : result B :=
  match m with
  | Ok a => f a
  | Raise e => Raise e
  end.

(** [for x in xs: body], threading the loop state and stopping at the
    first exception. *)
Fixpoint for_each {S X} (xs : list X) (body : S → X → result S) (s : S)
  : result S :=
  match xs with
  | [] => Ok s
  | x :: xs' => bind (body s x) (for_each xs' body)
  end.

(** [len(s)] on a string. *)
Definition len (s : string) : Z := Z.of_nat (String.length s).

(** [range(n)]: empty when [n <= 0]. *)
Definition range (n : Z) : list Z := seqZ 0 n.

(** [s * n] on strings: the empty string when [n <= 0]. *)
Fixpoint str_repeat (s : string) (n : nat) : string :=
  match n with
  | O => EmptyString
  | S n' => String.append s (str_repeat s n')
  end.
Definition str_mul (s : string) (n : Z) : string := str_repeat s (Z.to_nat n).

(** Normalisation of one bound of a slice [s[i:j]] against the length [n]:
    a negative bound counts from the end, and both are clamped to [0..n]. *)
Definition slice_bound (n i : Z) : Z :=
  if decide (i < 0) then Z.max 0 (i + n) else Z.min i n.

(** [s[i:j]]. *)
Definition slice (s : string) (i j : Z) : string :=
  let lo := slice_bound (len s) i in
  let hi := slice_bound (len s) j in
  String.substring (Z.to_nat lo) (Z.to_nat (hi - lo)) s.

(** The characters of a string, as a list. *)
Abbreviation chars := list_ascii_of_string.

(** [s.count(c)] for a one-character needle [c]. *)
Definition str_count (s : string) (c : ascii) : Z :=
  Z.of_nat (length (filter (λ x, x = c) (chars s))).

(** [''.join(t)] for a tuple [t] of one-character strings. *)
Definition join (t : list ascii) : string := string_of_list_ascii t.

(** Every way to take one element out of a pool, by position, in order. *)
Fixpoint selections {A} (pool : list A) : list (A * list A) :=
  match pool with
  | [] => []
  | x :: rest =>
      (x, rest) :: ((λ p, (p.1, x :: p.2)) <$> selections rest)
  end.

Fixpoint permutations_nat {A} (r : nat) (pool : list A) : list (list A) :=
  match r with
  | O => [[]]
  | S r' =>
      p ← selections pool; cons p.1 <$> permutations_nat r' p.2
  end.

(** [itertools.permutations(pool, r)]: the [r]-length arrangements of the
    pool's positions, in lexicographic order of positions; elements are
    distinguished by position, not by value, so equal values give repeated
    tuples.  A negative [r] is a [ValueError]; [r] beyond the pool's length
    gives no tuple. *)
Definition permutations {A} (pool : list A) (r : Z) : result (list (list A)) :=
  if decide (r < 0) then Raise ValueError
  else Ok (permutations_nat (Z.to_nat r) pool).

(** [set(xs)]: an unordered container without repetition. *)
Definition set_of `{Countable A} (xs : list A) : gset A := list_to_set xs.

(** [sorted(xs)] on strings: [String.le] is [<=] on [str], the
    lexicographic order by code point. *)
Definition sorted (xs : list string) : list string := merge_sort String.le xs.

(** True division [a / b] of two ints. *)
Definition truediv (a b : Z) : result Qc :=
  if decide (b = 0) then Raise ZeroDivisionError
  else Ok (Qc_of_Z a / Qc_of_Z b)%Qc.

(** *** Dictionaries

    A [dict] keeps its keys in insertion order, which is the column order
    of the table built from the rows; it is an association list whose
    assignment overwrites in place or appends. *)
Section Dict.
Context {K : Type} `{EqDecision K}.

Definition dict : Type := list (K * Qc).

Definition keys (d : dict) : list K := d.*1.
Definition values (d : dict) : list Qc := d.*2.

Fixpoint lookup_key (d : dict) (x : K) : option Qc :=
  match d with
  | [] => None
  | (y, v) :: d' => if decide (y = x) then Some v else lookup_key d' x
  end.

(** [d[x]] as an expression. *)
Definition getitem (d : dict) (x : K) : result Qc :=
  match lookup_key d x with
  | Some v => Ok v
  | None => Raise KeyError
  end.

(** [d[x] = v]. *)
Fixpoint setitem (d : dict) (x : K) (v : Qc) : dict :=
  match d with
  | [] => [(x, v)]
  | (y, w) :: d' =>
      if decide (y = x) then (y, v) :: d' else (y, w) :: setitem d' x v
  end.

(** [dict.fromkeys(ks, v)]. *)
Definition fromkeys (ks : list K) (v : Qc) : dict :=
  foldl (λ d x, setitem d x v) [] ks.

(** [d[x] += e]: the old value is read first (a missing key raises
    before [e] is evaluated), then [e] is evaluated, then the sum is
    stored. *)
Definition iadd_item (d : dict) (x : K) (e : result Qc) : result dict :=
  bind (getitem d x) (λ old,
  bind e (λ inc,
  Ok (setitem d x (old + inc)%Qc))).

(** [sum(d.values())]. *)
Definition total (d : dict) : Qc := foldr Qcplus 0%Qc (values d).
End Dict.
Arguments dict K : clear implicits.

(** *** Series and data frames *)

(** [series.apply(f).tolist()]: [f] is called on the cells in order, not at
    all on an empty series, and the first exception ends the call. *)
Fixpoint series_apply {A B} (f : A → result B) (xs : list A) : result (list B) :=
  match xs with
  | [] => Ok []
  | x :: xs' =>
      bind (f x) (λ y, bind (series_apply f xs') (λ ys, Ok (y :: ys)))
  end.

(** The input frame, as far as the transformers read it: its row index and
    its columns of strings, by name. *)
Record dataset (I : Type) : Type := mk_dataset {
  ds_index : list I;
  ds_columns : gmap string (list string);
}.
Arguments mk_dataset {I} ds_index ds_columns.
Arguments ds_index {I} d.
Arguments ds_columns {I} d.

(** [X[name]] on the input frame: the column, or [KeyError]. *)
Definition getitem_series {I} (X : dataset I) (name : string)
  : result (list string) :=
  match ds_columns X !! name with
  | Some cells => Ok cells
  | None => Raise KeyError
  end.

(** The frame built by [pd.DataFrame(rows, index=index)] from a list of row
    dictionaries, kept row by row. *)
Record table (I K : Type) : Type := DataFrame {
  tb_rows : list (dict K);
  tb_index : list I;
}.
Arguments DataFrame {I K} tb_rows tb_index.
Arguments tb_rows {I K} t.
Arguments tb_index {I K} t.

(** The columns of such a frame: the keys of the rows, each at its first
    appearance; a frame without rows has no column. *)
Definition table_columns {I K} `{EqDecision K} (tb : table I K) : list K :=
  foldl (λ acc row, acc ++ filter (λ x, x ∉ acc) (keys row)) [] (tb_rows tb).

End Py.

Import Py.

(** ** [class KMerTransformer] *)

Module KMerTransformer.

Record t : Type := mk {
  k : Z;
  normalize : bool;
  verbose : bool;
  kmer_perms : option (list string);
}.

(** [__init__(self, k, normalize=False, verbose=True)]: stores its
    arguments; nothing is checked. *)
Definition init (k : Z) (normalize verbose : bool) : result t :=
  Ok (mk k normalize verbose None).

(** [__create_kmer_permutations(self, k)]. *)
Definition create_kmer_permutations (k : Z) : result (list string) :=
  let superstring :=
    String.append (str_mul "G" k)
      (String.append (str_mul "A" k)
        (String.append (str_mul "T" k) (str_mul "C" k))) in
  bind (permutations (chars superstring) k) (λ perms,
  Ok (sorted (join <$> elements (set_of perms)))).

(** [fit(self, X)]: the data [X] is not read. *)
Definition fit (self : t) : result t :=
  bind (create_kmer_permutations (k self)) (λ perms,
  Ok (mk (k self) (normalize self) (verbose self) (Some perms))).

(** [__kmer_transform_seq(self, seq, k, kmer_perms)]. *)
Definition kmer_transform_seq (self : t) (seq : string) (k : Z)
    (kmer_perms : list string) : result (dict string) :=
  let kmer_freq := fromkeys kmer_perms 0%Qc in
  for_each (range (len seq - k))
    (λ kmer_freq i,
       if normalize self
       then iadd_item kmer_freq (slice seq i (i + k)) (truediv 1 (len seq))
       else iadd_item kmer_freq (slice seq i (i + k)) (Ok 1%Qc))
    kmer_freq.

(** [self.kmer_perms], an [AttributeError] before [fit]. *)
Definition get_kmer_perms (self : t) : result (list string) :=
  match kmer_perms self with
  | Some perms => Ok perms
  | None => Raise AttributeError
  end.

(** [transform(self, X)]: the column is read first; the attributes of
    [self] are read inside the lambda, once per cell. *)
Definition transform {I} (self : t) (X : dataset I) : result (table I string) :=
  bind (getitem_series X "seq") (λ seqs,
  bind (if verbose self
        then series_apply
               (λ x, bind (get_kmer_perms self) (λ perms,
                     kmer_transform_seq self x (k self) perms)) seqs
        else series_apply
               (λ x, bind (get_kmer_perms self) (λ perms,
                     kmer_transform_seq self x (k self) perms)) seqs)
       (λ rows, Ok (DataFrame rows (ds_index X)))).

(** [fit_transform(self, X, y=None)]. *)
Definition fit_transform {I} (self : t) (X : dataset I)
  : result (table I string) :=
  bind (fit self) (λ self, transform self X).

End KMerTransformer.

(** ** [class KGroupKMerTransformer] *)

Module KGroupKMerTransformer.

(** A composition key, the tuple returned by [__make_key_string]. *)
Definition key : Type := (Z * Z * Z * Z)%type.

Record t : Type := mk {
  k : Z;
  normalize : bool;
  verbose : bool;
  kmer_perms : option (list key);
}.

Definition init (k : Z) (normalize verbose : bool) : result t :=
  Ok (mk k normalize verbose None).

(** [__make_key_string(self, a, c, t, g)]. *)
Definition make_key_string (a c t g : Z) : key := (a, c, t, g).

(** [__create_kgroup_kmer_permutations(self, k)]: four nested loops, each
    over [range(k+1)], appending one key per hit of the test. *)
Definition create_kgroup_kmer_permutations (k : Z) : list key :=
  a ← range (k + 1);
  c ← range (k + 1);
  g ← range (k + 1);
  t ← range (k + 1);
  if decide (a + c + g + t = k) then [make_key_string a c t g] else [].

(** [fit(self, X)]: the data [X] is not read. *)
Definition fit (self : t) : result t :=
  Ok (mk (k self) (normalize self) (verbose self)
        (Some (create_kgroup_kmer_permutations (k self)))).

(** The key of one window: the four [count] calls and the tuple. *)
Definition window_key (subseq : string) : key :=
  let a := str_count subseq "A" in
  let c := str_count subseq "C" in
  let g := str_count subseq "G" in
  let t := str_count subseq "T" in
  make_key_string a c t g.

(** [__kmer_transform_seq(self, seq, k, kmer_perms)]. *)
Definition kmer_transform_seq (self : t) (seq : string) (k : Z)
    (kmer_perms : list key) : result (dict key) :=
  let kmer_freq := fromkeys kmer_perms 0%Qc in
  for_each (range (len seq - k))
    (λ kmer_freq i,
       let subseq := slice seq i (i + k) in
       let key_string := window_key subseq in
       if normalize self
       then iadd_item kmer_freq key_string (truediv 1 (len seq))
       else iadd_item kmer_freq key_string (Ok 1%Qc))
    kmer_freq.

(** [self.kmer_perms], an [AttributeError] before [fit]. *)
Definition get_kmer_perms (self : t) : result (list key) :=
  match kmer_perms self with
  | Some perms => Ok perms
  | None => Raise AttributeError
  end.

(** [transform(self, X)]. *)
Definition transform {I} (self : t) (X : dataset I) : result (table I key) :=
  bind (getitem_series X "seq") (λ seqs,
  bind (if verbose self
        then series_apply
               (λ x, bind (get_kmer_perms self) (λ perms,
                     kmer_transform_seq self x (k self) perms)) seqs
        else series_apply
               (λ x, bind (get_kmer_perms self) (λ perms,
                     kmer_transform_seq self x (k self) perms)) seqs)
       (λ rows, Ok (DataFrame rows (ds_index X)))).

(** [fit_transform(self, X, y=None)]. *)
Definition fit_transform {I} (self : t) (X : dataset I)
  : result (table I key) :=
  bind (fit self) (λ self, transform self X).

End KGroupKMerTransformer.

(** ** [class KGroupColumnPruner] *)

Module KGroupColumnPruner.

(** A data frame, column by column: each column has a label of type [L]
    and its cells, one per row. *)
Abbreviation frame L := (list (L * list Qc)).

Section Frame.
(** Column labels: strings for the exact transformer's tables, tuples
    for the grouped one's. *)
Context {L : Type} `{EqDecision L}.

Definition columns (X : frame L) : list L := X.*1.

(** [(X > 0).any(axis=0)] at one column. *)
Definition any_positive (cells : list Qc) : bool :=
  existsb (λ v, bool_decide (0 < v)%Qc) cells.

(** [X.loc[:, (X > 0).any(axis=0)]]. *)
Definition loc_any_positive (X : frame L) : frame L :=
  filter (λ col, any_positive col.2 = true) X.

Record t : Type := mk {
  verbose : bool;
  columns_to_keep : option (list L);
}.

Definition init (verbose : bool) : t := mk verbose None.

(** [fit(self, X)]. *)
Definition fit (self : t) (X : frame L) : t :=
  mk (verbose self) (Some (columns (loc_any_positive X))).

(** [X[labels]]: for each label in turn, every column of [X] carrying
    it; a label carried by no column is a [KeyError]. *)
Fixpoint getitem_columns (X : frame L) (labels : list L) : result (frame L) :=
  match labels with
  | [] => Ok []
  | l :: labels' =>
      match filter (λ col, col.1 = l) X with
      | [] => Raise KeyError
      | cols => bind (getitem_columns X labels') (λ rest, Ok (cols ++ rest))
      end
  end.

(** [transform(self, X)]; reading [self.columns_to_keep] before [fit]
    is an [AttributeError]. *)
Definition transform (self : t) (X : frame L) : result (frame L) :=
  match columns_to_keep self with
  | None => Raise AttributeError
  | Some keep => getitem_columns X keep
  end.

Definition fit_transform (self : t) (X : frame L) : result (frame L) :=
  transform (fit self X) X.
End Frame.
Arguments t L : clear implicits.
End KGroupColumnPruner.

(** * Vocabulary of the specification *)

(** ** The alphabet and its words *)

Definition bases : list ascii := ["A"; "C"; "G"; "T"]%char.

(** A string of length [k] over A, C, G, T. *)
Definition is_kmer (k : Z) (w : string) : Prop :=
  len w = k ∧ Forall (λ c, c ∈ bases) (chars w).

(** The number of occurrences of [b] in a list of characters, as counted by
    [str_count]. *)
Definition occ (b : ascii) (l : list ascii) : nat :=
  length (filter (λ x, x = b) l).

(** An independent enumeration of the words of length [n]: pick the first
    letter, then a word of length [n - 1]. *)
Fixpoint words (n : nat) : list (list ascii) :=
  match n with
  | O => [[]]
  | S n' => c ← bases; cons c <$> words n'
  end.

(** The pool handed to [permutations]: [k] copies of each base. *)
Definition superstring_chars (n : nat) : list ascii :=
  replicate n "G"%char ++ replicate n "A"%char
    ++ replicate n "T"%char ++ replicate n "C"%char.

(** ** Windows and the counting loop *)

(** The increment of one window: [1] in raw mode, [1/len(seq)] in
    normalized mode. *)
Definition increment (normalize : bool) (seq : string) : result Qc :=
  if normalize then truediv 1 (len seq) else Ok 1%Qc.

(** The window at offset [i]. *)
Definition window (seq : string) (k i : Z) : string := slice seq i (i + k).

(** The value of the increment once the sequence is known to be non-empty. *)
Definition step (normalize : bool) (seq : string) : Qc :=
  if normalize then (Qc_of_Z 1 / Qc_of_Z (len seq))%Qc else 1%Qc.

(** How many indices of [ixs] have key [x]. *)
Definition hits {K} `{EqDecision K} (key_of : Z → K) (x : K) (ixs : list Z)
  : nat :=
  length (filter (λ i, key_of i = x) ixs).

(** The loop shared by both transformers: every index [i] of [ixs] adds the
    same increment to the entry of [key_of i]. *)
Definition counting_loop {K} `{EqDecision K} (key_of : Z → K)
    (inc : result Qc) (ixs : list Z) (d : dict K) : result (dict K) :=
  for_each ixs (λ d i, iadd_item d (key_of i) inc) d.

(** ** Loop tuples and compositions *)

(** A loop tuple [(a, c, g, t)], in the order of the four loop variables. *)
Definition loop_tuple : Type := (Z * Z * Z * Z)%type.

(** The lexicographic order of loop tuples: the order in which four nested
    ascending loops over [a], [c], [g], [t] visit them. *)
Definition loop_lt (p q : loop_tuple) : Prop :=
  let '(a, c, g, t) := p in
  let '(a', c', g', t') := q in
  a < a' ∨ a = a' ∧ (c < c' ∨ c = c' ∧ (g < g' ∨ g = g' ∧ t < t')).

(** The key appended for a loop tuple: [t] goes to the third field and [g]
    to the fourth. *)
Definition key_of_loop_tuple (p : loop_tuple) : KGroupKMerTransformer.key :=
  let '(a, c, g, t) := p in KGroupKMerTransformer.make_key_string a c t g.

(** The tuples for which the four nested loops append a key, in loop
    order. *)
Definition loop_tuples (k : Z) : list loop_tuple :=
  a ← range (k + 1);
  c ← range (k + 1);
  g ← range (k + 1);
  t ← range (k + 1);
  if decide (a + c + g + t = k) then [(a, c, g, t)] else [].

(** Binomial coefficients by Pascal's rule. *)
Fixpoint choose (n r : nat) : nat :=
  match n, r with
  | _, O => 1
  | O, S _ => 0
  | S n', S r' => choose n' r' + choose n' r
  end.

(** The sum of [f] over a list of integers. *)
Definition sumZ (f : Z → Z) (l : list Z) : Z := foldr (λ x acc, f x + acc) 0 l.

(** The word [w] contains exactly [a] A's, [c] C's, [g] G's and [t] T's. *)
Definition has_composition (a c g t : Z) (w : string) : Prop :=
  str_count w "A" = a ∧ str_count w "C" = c
  ∧ str_count w "G" = g ∧ str_count w "T" = t.

Global Instance has_composition_dec a c g t w :
  Decision (has_composition a c g t w).
Proof. unfold has_composition. apply _. Defined.

(** The sum of a list of rationals. *)
Definition sumQc (l : list Qc) : Qc := foldr Qcplus 0%Qc l.

(** The table of a small pruning scenario: column AA holds one non-zero
    entry, column TT is all zero. *)
Definition example_table : KGroupColumnPruner.frame string :=
  [("AA", [Qc_of_Z 0; Qc_of_Z 3]); ("TT", [Qc_of_Z 0; Qc_of_Z 0])].

(** Small input frames: two sequences over the alphabet, and one in
    which a sequence has a foreign character in a counted window. *)
Definition example_dataset : dataset nat :=
  mk_dataset [0%nat; 1%nat] {[ "seq" := ["ACGT"; "AAC"] ]}.

Definition example_dataset_foreign : dataset nat :=
  mk_dataset [0%nat; 1%nat] {[ "seq" := ["ACGT"; "ANAA"] ]}.

(** * Sanity checks of the embedding *)

Example ex_vocab_1 :
  KMerTransformer.create_kmer_permutations 1 = Ok ["A"; "C"; "G"; "T"]%string.
Proof. vm_compute. reflexivity. Qed.

Example ex_gvocab_1 :
  KGroupKMerTransformer.create_kgroup_kmer_permutations 1
  = [(0,0,1,0); (0,0,0,1); (0,1,0,0); (1,0,0,0)].
Proof. vm_compute. reflexivity. Qed.

Example ex_AAAA :
  KMerTransformer.kmer_transform_seq (KMerTransformer.mk 2 false true None) "AAAA" 2
    ["AA"; "AC"]%string = Ok [("AA"%string, Qc_of_Z 2); ("AC"%string, Qc_of_Z 0)].
Proof. apply (bool_decide_unpack _). vm_compute. reflexivity. Qed.

(** The exact transform of AACGT with [k = 1]: four windows are counted,
    the final T is not. *)
Example ex_AACGT :
  KMerTransformer.kmer_transform_seq (KMerTransformer.mk 1 false true None)
    "AACGT" 1 ["A"; "C"; "G"; "T"]
  = Ok [("A", Qc_of_Z 2); ("C", Qc_of_Z 1); ("G", Qc_of_Z 1); ("T", Qc_of_Z 0)].
Proof. apply (bool_decide_unpack _). vm_compute. reflexivity. Qed.

(** The grouped transform of ACGT with [k = 2]: the windows AC and CG are
    counted, under the keys [(a, c, t, g)]. *)
Example ex_grouped_ACGT :
  KGroupKMerTransformer.kmer_transform_seq
    (KGroupKMerTransformer.mk 2 false true None) "ACGT" 2
    (KGroupKMerTransformer.create_kgroup_kmer_permutations 2)
  = Ok [((0, 0, 2, 0), Qc_of_Z 0); ((0, 0, 1, 1), Qc_of_Z 0);
        ((0, 0, 0, 2), Qc_of_Z 0); ((0, 1, 1, 0), Qc_of_Z 0);
        ((0, 1, 0, 1), Qc_of_Z 1); ((0, 2, 0, 0), Qc_of_Z 0);
        ((1, 0, 1, 0), Qc_of_Z 0); ((1, 0, 0, 1), Qc_of_Z 0);
        ((1, 1, 0, 0), Qc_of_Z 1); ((2, 0, 0, 0), Qc_of_Z 0)].
Proof. apply (bool_decide_unpack _). vm_compute. reflexivity. Qed.

(** Python's slice clamps its bounds. *)
Example ex_slice :
  slice "ACGT" 1 3 = "CG" ∧ slice "ACGT" 2 9 = "GT"
  ∧ slice "ACGT" (-3) (-1) = "CG" ∧ slice "ACGT" 3 1 = EmptyString.
Proof. by vm_compute. Qed.

(** * Properties of the runtime fragments *)

Section Strings.

Lemma length_chars s : length (chars s) = String.length s.
Proof. induction s; simpl; congruence. Qed.

Lemma len_chars s : len s = Z.of_nat (length (chars s)).
Proof. unfold len. by rewrite length_chars. Qed.

Lemma chars_append s1 s2 :
  chars (String.append s1 s2) = chars s1 ++ chars s2.
Proof.
  induction s1 as [|c s1 IH]; [done|].
  change (c :: chars (s1 +:+ s2) = c :: (chars s1 ++ chars s2)).
  by rewrite IH.
Qed.

Lemma chars_substring n m s :
  chars (String.substring n m s) = take m (drop n (chars s)).
Proof.
  revert n m.
  induction s as [|c s IH]; intros [|n] [|m]; simpl; rewrite ?IH; done.
Qed.

Lemma chars_inj s1 s2 : chars s1 = chars s2 → s1 = s2.
Proof.
  intros E. rewrite <-(string_of_list_ascii_of_string s1),
    <-(string_of_list_ascii_of_string s2). by rewrite E.
Qed.

Lemma chars_join t : chars (join t) = t.
Proof. apply list_ascii_of_string_of_list_ascii. Qed.

Lemma join_chars s : join (chars s) = s.
Proof. apply string_of_list_ascii_of_string. Qed.

Global Instance join_inj : Inj (=) (=) join.
Proof. intros t1 t2 E. by rewrite <-(chars_join t1), <-(chars_join t2), E. Qed.

Lemma chars_str_repeat c n :
  chars (str_repeat (String c EmptyString) n) = replicate n c.
Proof.
  induction n as [|n IH]; [done|].
  simpl. rewrite chars_append, IH. done.
Qed.

(** A window that lies inside the string is the plain substring. *)
Lemma chars_slice s i k :
  0 ≤ i → 0 ≤ k → i + k ≤ len s →
  chars (slice s i (i + k)) = take (Z.to_nat k) (drop (Z.to_nat i) (chars s)).
Proof.
  intros Hi Hk Hlen. unfold slice, slice_bound.
  rewrite !decide_False by lia.
  rewrite chars_substring. do 2 f_equal; lia.
Qed.

Lemma len_slice s i k :
  0 ≤ i → 0 ≤ k → i + k ≤ len s → len (slice s i (i + k)) = k.
Proof.
  intros Hi Hk Hlen. rewrite len_chars, chars_slice by done.
  rewrite len_chars in Hlen.
  rewrite length_take, length_drop. lia.
Qed.

End Strings.

(** ** The words of a given length *)

Section Words.

Lemma words_S n : words (S n) = c ← bases; cons c <$> words n.
Proof. reflexivity. Qed.

Lemma elem_of_words n w :
  w ∈ words n ↔ length w = n ∧ Forall (λ c, c ∈ bases) w.
Proof.
  revert w. induction n as [|n IH]; intros w; [simpl|rewrite words_S].
  - rewrite list_elem_of_singleton. split.
    + intros ->. by split.
    + intros [Hl _]. by destruct w.
  - rewrite list_elem_of_bind. split.
    + intros (c & Hw & Hc). apply list_elem_of_fmap in Hw as (w' & -> & Hw').
      apply IH in Hw' as [Hl Hf]. simpl. split; [by rewrite Hl|by constructor].
    + intros [Hl Hf]. destruct w as [|c w]; [done|].
      inversion Hf; subst. exists c. split; [|done].
      apply list_elem_of_fmap. exists w. split; [done|].
      apply IH. split; [|done]. simpl in Hl. lia.
Qed.

Lemma NoDup_words n : NoDup (words n).
Proof.
  induction n as [|n IH]; [simpl|rewrite words_S].
  - apply NoDup_singleton.
  - apply NoDup_bind.
    + intros c1 c2 w _ _ H1 H2.
      apply list_elem_of_fmap in H1 as (w1 & -> & _).
      apply list_elem_of_fmap in H2 as (w2 & E & _). by inversion E.
    + intros c _. apply NoDup_fmap_2; [|done]. by intros w1 w2 [= ->].
    + unfold bases. apply (bool_decide_unpack _). by vm_compute.
Qed.

Lemma length_words n : length (words n) = Z.to_nat (4 ^ Z.of_nat n).
Proof.
  induction n as [|n IH]; [done|].
  rewrite Nat2Z.inj_succ, Z.pow_succ_r by lia.
  simpl. rewrite !length_app, !length_fmap, IH. simpl. lia.
Qed.

End Words.

(** ** [itertools.permutations] *)

Section Permutations.
Context {A : Type}.
Implicit Types (pool rest : list A) (x : A).

Lemma permutations_nat_S r pool :
  permutations_nat (S r) pool
  = p ← selections pool; cons p.1 <$> permutations_nat r p.2.
Proof. reflexivity. Qed.

Lemma elem_of_selections_split pool l1 x l2 :
  pool = l1 ++ x :: l2 → (x, l1 ++ l2) ∈ selections pool.
Proof.
  revert pool. induction l1 as [|y l1 IH]; intros pool ->; simpl.
  - apply list_elem_of_here.
  - apply list_elem_of_further, list_elem_of_fmap.
    exists (x, l1 ++ l2). split; [done|]. by apply IH.
Qed.

Lemma elem_of_selections pool x rest :
  (x, rest) ∈ selections pool →
  ∃ l1 l2, pool = l1 ++ x :: l2 ∧ rest = l1 ++ l2.
Proof.
  revert x rest. induction pool as [|y pool IH]; intros x rest; simpl.
  - by intros ?%elem_of_nil.
  - rewrite elem_of_cons. intros [[= -> ->]|H].
    + by exists [], pool.
    + apply list_elem_of_fmap in H as ([x' rest'] & [= -> ->] & H).
      apply IH in H as (l1 & l2 & -> & ->). by exists (y :: l1), l2.
Qed.

(** Every emitted tuple has length [r] and draws its elements from the
    pool. *)
Lemma permutations_nat_sound r pool w :
  w ∈ permutations_nat r pool → length w = r ∧ w ⊆ pool.
Proof.
  revert pool w.
  induction r as [|r IH]; intros pool w; [simpl|rewrite permutations_nat_S].
  - rewrite list_elem_of_singleton. intros ->. split; [done|].
    apply list_subseteq_nil.
  - rewrite list_elem_of_bind. intros ([x rest] & Hw & Hsel).
    apply list_elem_of_fmap in Hw as (w' & -> & Hw'). simpl in *.
    apply IH in Hw' as [Hl Hsub].
    apply elem_of_selections in Hsel as (l1 & l2 & -> & ->).
    split; [by rewrite <-Hl|].
    intros z [->|Hz]%elem_of_cons.
    + apply elem_of_app. right. left.
    + apply Hsub, elem_of_app in Hz. apply elem_of_app.
      destruct Hz; [by left|right; by right].
Qed.

End Permutations.

Section Occurrences.
Implicit Types (b c : ascii) (l : list ascii).

Lemma occ_app b l1 l2 : occ b (l1 ++ l2) = (occ b l1 + occ b l2)%nat.
Proof. unfold occ. by rewrite filter_app, length_app. Qed.

Lemma occ_cons b c l :
  occ b (c :: l) = ((if decide (c = b) then 1 else 0) + occ b l)%nat.
Proof. unfold occ. rewrite filter_cons. by destruct (decide (c = b)). Qed.

Lemma occ_pos_elem_of b l : (0 < occ b l)%nat → b ∈ l.
Proof.
  unfold occ. intros H.
  destruct (filter (λ x, x = b) l) as [|x l'] eqn:E; [simpl in H; lia|].
  assert (x ∈ filter (λ x, x = b) l) as Hx by (rewrite E; left).
  apply list_elem_of_filter in Hx as [-> ?]. done.
Qed.

Lemma occ_replicate b c n :
  occ b (replicate n c) = if decide (c = b) then n else 0%nat.
Proof.
  induction n as [|n IH]; simpl.
  - by destruct (decide (c = b)).
  - rewrite occ_cons, IH. by destruct (decide (c = b)).
Qed.

(** The sum of the four [count] calls of a window; every character outside
    the alphabet is missed by all four. *)
Lemma occ_bases_le l :
  (occ "A" l + occ "C" l + occ "G" l + occ "T" l ≤ length l)%nat.
Proof.
  induction l as [|c l IH]; [done|].
  rewrite !occ_cons. simpl.
  repeat case_decide; simplify_eq; lia.
Qed.

Lemma occ_bases_eq l :
  Forall (λ c, c ∈ bases) l →
  (occ "A" l + occ "C" l + occ "G" l + occ "T" l = length l)%nat.
Proof.
  induction 1 as [|c l Hc _ IH]; [done|].
  rewrite !occ_cons. simpl. unfold bases in Hc.
  repeat (apply elem_of_cons in Hc as [->|Hc]); [..|by apply elem_of_nil in Hc];
    repeat case_decide; simplify_eq; lia.
Qed.

Lemma occ_bases_lt l :
  ¬ Forall (λ c, c ∈ bases) l →
  (occ "A" l + occ "C" l + occ "G" l + occ "T" l < length l)%nat.
Proof.
  induction l as [|c l IH]; intros Hnot.
  - destruct Hnot. constructor.
  - rewrite !occ_cons. simpl.
    destruct (decide (c ∈ bases)) as [Hc|Hc].
    + assert (¬ Forall (λ c, c ∈ bases) l) as Hl
        by (intros Hl; apply Hnot; by constructor).
      apply IH in Hl. repeat case_decide; simplify_eq; lia.
    + pose proof (occ_bases_le l).
      unfold bases in Hc. rewrite !not_elem_of_cons in Hc.
      destruct Hc as (? & ? & ? & ? & _).
      rewrite !decide_False by done. lia.
Qed.

(** With at least [r] copies of every base in the pool, every word of
    length [r] over the alphabet is emitted. *)
Lemma permutations_nat_complete r pool w :
  length w = r →
  Forall (λ c, c ∈ bases) w →
  (∀ b, b ∈ bases → (r ≤ occ b pool)%nat) →
  w ∈ permutations_nat r pool.
Proof.
  revert r pool. induction w as [|c w IH]; intros r pool <- Hw Hpool.
  - apply list_elem_of_here.
  - inversion Hw as [|? ? Hc Hw']; subst.
    change (length (c :: w)) with (S (length w)) in *.
    rewrite permutations_nat_S.
    assert (c ∈ pool) as Hin.
    { apply occ_pos_elem_of. specialize (Hpool c Hc). simpl in Hpool. lia. }
    apply list_elem_of_split in Hin as (l1 & l2 & ->).
    apply list_elem_of_bind. exists (c, l1 ++ l2). split.
    + apply list_elem_of_fmap. exists w. split; [done|]. simpl.
      apply IH; [done..|]. intros b Hb. specialize (Hpool b Hb).
      rewrite occ_app, occ_cons in Hpool. rewrite occ_app. simpl in Hpool.
      case_decide; lia.
    + by apply elem_of_selections_split.
Qed.

End Occurrences.

(** ** The exact-mode vocabulary *)

Section ExactVocabulary.

Lemma is_kmer_chars k w :
  0 ≤ k →
  is_kmer k w ↔ length (chars w) = Z.to_nat k ∧ Forall (λ c, c ∈ bases) (chars w).
Proof. intros Hk. unfold is_kmer. rewrite len_chars. intuition lia. Qed.

Lemma create_kmer_permutations_unfold k :
  0 ≤ k →
  KMerTransformer.create_kmer_permutations k
  = Ok (sorted (join <$> elements (set_of
          (permutations_nat (Z.to_nat k) (superstring_chars (Z.to_nat k)))))).
Proof.
  intros Hk. unfold KMerTransformer.create_kmer_permutations, permutations.
  rewrite decide_False by lia. simpl.
  rewrite !chars_append. unfold str_mul. rewrite !chars_str_repeat. done.
Qed.

Lemma elem_of_superstring_permutations n t :
  t ∈ permutations_nat n (superstring_chars n)
  ↔ length t = n ∧ Forall (λ c, c ∈ bases) t.
Proof.
  split.
  - intros [Hl Hsub]%permutations_nat_sound. split; [done|].
    apply Forall_forall. intros c Hc%Hsub. unfold superstring_chars in Hc.
    rewrite !elem_of_app in Hc. unfold bases.
    destruct Hc as [Hc|[Hc|[Hc|Hc]]]; apply elem_of_replicate_inv in Hc as ->;
      set_solver.
  - intros [Hl Hf]. apply permutations_nat_complete; [done..|].
    intros b Hb. unfold superstring_chars. rewrite !occ_app, !occ_replicate.
    unfold bases in Hb.
    repeat (apply elem_of_cons in Hb as [->|Hb]); [..|by apply elem_of_nil in Hb];
      simpl; lia.
Qed.

(** What [create_kmer_permutations] returns, for every [k >= 0]. *)
Lemma create_kmer_permutations_spec k :
  0 ≤ k →
  ∃ v, KMerTransformer.create_kmer_permutations k = Ok v
     ∧ (∀ w, w ∈ v ↔ is_kmer k w)
     ∧ NoDup v
     ∧ StronglySorted String.le v
     ∧ v ≡ₚ join <$> words (Z.to_nat k).
Proof.
  intros Hk. eexists. split; [by apply create_kmer_permutations_unfold|].
  set (P := permutations_nat _ _). unfold sorted.
  assert (∀ w, w ∈ merge_sort String.le (join <$> elements (set_of P))
               ↔ is_kmer k w) as Hmem.
  { intros w. rewrite merge_sort_Permutation, list_elem_of_fmap.
    rewrite is_kmer_chars by done. split.
    - intros (t & -> & Ht). apply elem_of_elements, elem_of_list_to_set in Ht.
      rewrite chars_join. by apply elem_of_superstring_permutations.
    - intros Hw. exists (chars w). split; [by rewrite join_chars|].
      apply elem_of_elements, elem_of_list_to_set.
      by apply elem_of_superstring_permutations. }
  assert (NoDup (merge_sort String.le (join <$> elements (set_of P)))) as Hnd.
  { rewrite merge_sort_Permutation. apply NoDup_fmap_2; [apply _|].
    apply NoDup_elements. }
  split_and!; [done|done|apply StronglySorted_merge_sort; apply _|].
  apply NoDup_Permutation; [done|..].
  - apply NoDup_fmap_2; [apply _|]. apply NoDup_words.
  - intros w. rewrite Hmem, list_elem_of_fmap, is_kmer_chars by done. split.
    + intros Hw. exists (chars w). split; [by rewrite join_chars|].
      by apply elem_of_words.
    + intros (t & -> & Ht). rewrite chars_join. by apply elem_of_words.
Qed.

End ExactVocabulary.

(** ** Dictionaries and the counting loop *)

Section DictFacts.
Context {K : Type} `{EqDecision K}.
Implicit Types (d : dict K) (ks : list K) (x y : K) (v q : Qc).

Lemma elem_of_keys d x : x ∈ keys d ↔ is_Some (lookup_key d x).
Proof.
  unfold keys. induction d as [|[y w] d IH]; simpl.
  - split; [by intros ?%elem_of_nil|by intros [? ?]].
  - rewrite elem_of_cons. case_decide; subst.
    + split; [by eexists|by left].
    + rewrite IH. split; [by intros [?|?]|by right].
Qed.

Lemma getitem_missing d x : x ∉ keys d → getitem d x = Raise KeyError.
Proof.
  rewrite elem_of_keys. unfold getitem.
  destruct (lookup_key d x); [intros []; by eexists|done].
Qed.

Lemma lookup_key_setitem_eq d x v : lookup_key (setitem d x v) x = Some v.
Proof.
  induction d as [|[y w] d IH]; simpl.
  - by rewrite decide_True.
  - case_decide; simpl; [by rewrite decide_True|by rewrite decide_False].
Qed.

Lemma lookup_key_setitem_ne d x y v :
  x ≠ y → lookup_key (setitem d x v) y = lookup_key d y.
Proof.
  intros Hne. induction d as [|[z w] d IH]; simpl.
  - by rewrite decide_False.
  - destruct (decide (z = x)) as [->|]; simpl.
    + by rewrite !decide_False.
    + by rewrite IH.
Qed.

(** Assigning to a key that is present keeps the key order. *)
Lemma keys_setitem_present d x v : x ∈ keys d → keys (setitem d x v) = keys d.
Proof.
  unfold keys. induction d as [|[y w] d IH]; simpl.
  - by intros ?%elem_of_nil.
  - intros Hx. case_decide; [done|]. simpl. f_equal. apply IH.
    apply elem_of_cons in Hx as [->|]; done.
Qed.

Lemma keys_setitem_absent d x v : x ∉ keys d → keys (setitem d x v) = keys d ++ [x].
Proof.
  unfold keys. induction d as [|[y w] d IH]; simpl; [done|].
  rewrite not_elem_of_cons. intros [? ?].
  rewrite decide_False by done. simpl. f_equal. by apply IH.
Qed.

Lemma total_cons x v d : total ((x, v) :: d) = (v + total d)%Qc.
Proof. done. Qed.

Lemma total_setitem d x old v :
  lookup_key d x = Some old → total (setitem d x v) = (total d - old + v)%Qc.
Proof.
  induction d as [|[y w] d IH]; simpl; [done|].
  case_decide.
  - intros [= ->]. rewrite !total_cons. ring.
  - intros Hl. rewrite !total_cons, IH by done. ring.
Qed.

Lemma values_setitem_same d x v :
  Forall (λ w, w = v) (values d) → Forall (λ w, w = v) (values (setitem d x v)).
Proof.
  unfold values. induction d as [|[y w] d IH]; simpl.
  - by repeat constructor.
  - intros Hd. inversion Hd; subst. case_decide; simpl; constructor; auto.
Qed.

(** *** [dict.fromkeys] *)

Lemma fromkeys_foldl_keys ks d v :
  NoDup ks → (∀ x, x ∈ ks → x ∉ keys d) →
  keys (foldl (λ d x, setitem d x v) d ks) = keys d ++ ks.
Proof.
  revert d. induction ks as [|x ks IH]; intros d Hnd Hdisj; simpl.
  - by rewrite app_nil_r.
  - apply NoDup_cons in Hnd as [Hx Hnd].
    assert (x ∉ keys d) as Hxd by (apply Hdisj; left).
    rewrite IH; [|done|].
    + rewrite keys_setitem_absent by done. by rewrite <-app_assoc.
    + intros y Hy. rewrite keys_setitem_absent by done.
      rewrite elem_of_app, list_elem_of_singleton.
      intros [Hyd| ->]; [|done]. by eapply Hdisj; [right|].
Qed.

Lemma fromkeys_foldl_elem_of ks d v x :
  x ∈ keys (foldl (λ d x, setitem d x v) d ks) ↔ x ∈ keys d ∨ x ∈ ks.
Proof.
  revert d. induction ks as [|y ks IH]; intros d; simpl.
  - rewrite elem_of_nil. tauto.
  - rewrite IH, elem_of_cons.
    destruct (decide (y ∈ keys d)) as [Hy|Hy].
    + rewrite keys_setitem_present by done. split; [tauto|].
      intros [?|[->|?]]; tauto.
    + rewrite keys_setitem_absent, elem_of_app, list_elem_of_singleton by done.
      tauto.
Qed.

Lemma fromkeys_foldl_values ks d v :
  Forall (λ w, w = v) (values d) →
  Forall (λ w, w = v) (values (foldl (λ d x, setitem d x v) d ks)).
Proof.
  revert d. induction ks as [|y ks IH]; intros d Hd; simpl; [done|].
  by apply IH, values_setitem_same.
Qed.

(** The fresh row has exactly the vocabulary's keys, in the vocabulary's
    order when it has no repetition, and the given value everywhere. *)
Lemma keys_fromkeys ks v : NoDup ks → keys (fromkeys ks v) = ks.
Proof.
  intros Hnd. unfold fromkeys. rewrite fromkeys_foldl_keys; [done..|].
  intros x _. apply not_elem_of_nil.
Qed.

Lemma elem_of_keys_fromkeys ks v x : x ∈ keys (fromkeys ks v) ↔ x ∈ ks.
Proof.
  unfold fromkeys. rewrite fromkeys_foldl_elem_of. simpl.
  rewrite elem_of_nil. tauto.
Qed.

Lemma values_fromkeys ks v : Forall (λ w, w = v) (values (fromkeys ks v)).
Proof. apply fromkeys_foldl_values. constructor. Qed.

Lemma lookup_key_values d x w (P : Qc → Prop) :
  Forall P (values d) → lookup_key d x = Some w → P w.
Proof.
  unfold values. induction d as [|[y u] d IH]; simpl; [done|].
  intros Hd. inversion Hd; subst. case_decide; [by intros [= ->]|auto].
Qed.

Lemma lookup_key_fromkeys ks v x :
  x ∈ ks → lookup_key (fromkeys ks v) x = Some v.
Proof.
  intros Hx. apply elem_of_keys_fromkeys with (v := v), elem_of_keys in Hx.
  destruct Hx as [w Hw]. rewrite Hw. f_equal.
  by apply (lookup_key_values _ _ _ (λ w, w = v) (values_fromkeys ks v)) in Hw.
Qed.

Lemma total_all_zero d : Forall (λ w, w = 0%Qc) (values d) → total d = 0%Qc.
Proof.
  unfold total. induction 1 as [|w l -> _ IH]; simpl; [done|].
  rewrite IH. ring.
Qed.

Lemma total_fromkeys_zero ks : total (fromkeys ks 0%Qc) = 0%Qc.
Proof. apply total_all_zero, values_fromkeys. Qed.

End DictFacts.

Section CountingLoop.
Context {K : Type} `{EqDecision K}.
Variable key_of : Z → K.
Implicit Types (d : dict K) (ixs : list Z) (x : K) (q : Qc).

Lemma Qc_of_nat_S (n : nat) :
  Qc_of_Z (Z.of_nat (S n)) = (Qc_of_Z (Z.of_nat n) + 1)%Qc.
Proof. by rewrite Nat2Z.inj_succ, <-Z.add_1_r, Z2Qc_inj_add, Z2Qc_inj_1. Qed.

Lemma counting_loop_ok q ixs d :
  (∀ i, i ∈ ixs → key_of i ∈ keys d) →
  ∃ d', counting_loop key_of (Ok q) ixs d = Ok d'
      ∧ keys d' = keys d
      ∧ (∀ x, lookup_key d' x
              = (λ v, v + q * Qc_of_Z (Z.of_nat (hits key_of x ixs)))%Qc <$> lookup_key d x)
      ∧ total d' = (total d + q * Qc_of_Z (Z.of_nat (length ixs)))%Qc.
Proof.
  revert d. induction ixs as [|i ixs IH]; intros d Hin.
  - exists d. split_and!; [done..| |].
    + intros x. destruct (lookup_key d x); simpl; [|done].
      f_equal. change (Z.of_nat (hits key_of x [])) with 0. rewrite Z2Qc_inj_0. ring.
    + change (Z.of_nat (length [])) with 0. rewrite Z2Qc_inj_0. ring.
  - assert (key_of i ∈ keys d) as Hi by (apply Hin; left).
    pose proof Hi as [old Hold]%elem_of_keys.
    destruct (IH (setitem d (key_of i) (old + q)%Qc)) as (d' & Hrun & Hk & Hl & Ht).
    { intros j Hj. rewrite keys_setitem_present by done. apply Hin. by right. }
    exists d'. split_and!.
    + unfold counting_loop in *. simpl. unfold iadd_item, getitem.
      rewrite Hold. simpl. done.
    + by rewrite Hk, keys_setitem_present.
    + intros x. rewrite Hl. unfold hits. rewrite filter_cons.
      destruct (decide (key_of i = x)) as [<-|Hne].
      * rewrite lookup_key_setitem_eq, Hold. simpl. f_equal.
        rewrite Qc_of_nat_S. ring.
      * by rewrite lookup_key_setitem_ne.
    + rewrite Ht, (total_setitem _ _ old) by done.
      change (length (i :: ixs)) with (S (length ixs)). rewrite Qc_of_nat_S. ring.
Qed.

(** One index whose key is missing makes the whole loop raise [KeyError]:
    the keys never change, and no other exception can come first. *)
Lemma counting_loop_keyerror q ixs d i :
  i ∈ ixs → key_of i ∉ keys d → counting_loop key_of (Ok q) ixs d = Raise KeyError.
Proof.
  revert d. induction ixs as [|j ixs IH]; intros d Hi Hmiss.
  - by apply elem_of_nil in Hi.
  - unfold counting_loop in *. simpl.
    destruct (decide (key_of j ∈ keys d)) as [Hj|Hj].
    + pose proof Hj as [old Hold]%elem_of_keys.
      unfold iadd_item, getitem. rewrite Hold. simpl.
      apply elem_of_cons in Hi as [->|Hi]; [done|].
      apply IH; [done|]. by rewrite keys_setitem_present.
    + unfold iadd_item. by rewrite getitem_missing.
Qed.

Lemma counting_loop_nil inc d : counting_loop key_of inc [] d = Ok d.
Proof. done. Qed.

End CountingLoop.

(** ** The two per-sequence transforms as counting loops *)

Section Transforms.
Implicit Types (seq : string) (k i : Z).

Lemma exact_transform_loop (self : KMerTransformer.t) seq k perms :
  KMerTransformer.kmer_transform_seq self seq k perms
  = counting_loop (window seq k) (increment (KMerTransformer.normalize self) seq)
      (range (len seq - k)) (fromkeys perms 0%Qc).
Proof.
  unfold KMerTransformer.kmer_transform_seq, counting_loop, increment, window.
  by destruct (KMerTransformer.normalize self).
Qed.

Lemma grouped_transform_loop (self : KGroupKMerTransformer.t) seq k perms :
  KGroupKMerTransformer.kmer_transform_seq self seq k perms
  = counting_loop (λ i, KGroupKMerTransformer.window_key (window seq k i))
      (increment (KGroupKMerTransformer.normalize self) seq)
      (range (len seq - k)) (fromkeys perms 0%Qc).
Proof.
  unfold KGroupKMerTransformer.kmer_transform_seq, counting_loop, increment, window.
  by destruct (KGroupKMerTransformer.normalize self).
Qed.

Lemma elem_of_range n i : i ∈ range n ↔ 0 ≤ i < n.
Proof. unfold range. rewrite elem_of_seqZ. lia. Qed.

Lemma length_range n : 0 ≤ n → Z.of_nat (length (range n)) = n.
Proof. intros Hn. unfold range. rewrite length_seqZ. lia. Qed.

(** When the loop runs at all and [k >= 0], the sequence is not empty, so
    the normalized increment is defined. *)
Lemma increment_ok b seq :
  0 < len seq →
  increment b seq
  = Ok (if b then (Qc_of_Z 1 / Qc_of_Z (len seq))%Qc else 1%Qc).
Proof.
  intros Hlen. unfold increment, truediv. destruct b; [|done].
  by rewrite decide_False by lia.
Qed.

Lemma chars_window seq k i :
  0 ≤ k → 0 ≤ i < len seq - k →
  chars (window seq k i) = take (Z.to_nat k) (drop (Z.to_nat i) (chars seq)).
Proof. intros Hk Hi. unfold window. apply chars_slice; lia. Qed.

Lemma length_chars_window seq k i :
  0 ≤ k → 0 ≤ i < len seq - k → length (chars (window seq k i)) = Z.to_nat k.
Proof.
  intros Hk Hi. rewrite chars_window by done.
  pose proof (len_chars seq). rewrite length_take, length_drop. lia.
Qed.

(** A window of a sequence over the alphabet is a k-mer. *)
Lemma window_is_kmer seq k i :
  0 ≤ k → 0 ≤ i < len seq - k →
  Forall (λ c, c ∈ bases) (chars seq) → is_kmer k (window seq k i).
Proof.
  intros Hk Hi Hseq. split.
  - unfold window. apply len_slice; lia.
  - rewrite chars_window by done. by apply Forall_take, Forall_drop.
Qed.

End Transforms.

(** ** The grouped-mode vocabulary *)

Section ListHelpers.

Lemma fmap_bind_comm {A B C} (f : B → C) (g : A → list B) (l : list A) :
  f <$> (l ≫= g) = l ≫= (λ x, f <$> g x).
Proof.
  induction l as [|x l IH]; [done|].
  by rewrite !bind_cons, fmap_app, IH.
Qed.

Lemma StronglySorted_bind {A B} (RA : relation A) (RB : relation B)
    (f : A → list B) (l : list A) :
  StronglySorted RA l →
  (∀ x, x ∈ l → StronglySorted RB (f x)) →
  (∀ x1 x2 y1 y2, RA x1 x2 → y1 ∈ f x1 → y2 ∈ f x2 → RB y1 y2) →
  StronglySorted RB (l ≫= f).
Proof.
  intros Hl Hf Hcross. induction Hl as [|x l Hl IH Hx].
  - constructor.
  - rewrite bind_cons. apply StronglySorted_app_2.
    + intros y1 y2 Hy1 (x2 & Hy2 & Hx2)%list_elem_of_bind.
      rewrite Forall_forall in Hx. eapply Hcross; [by apply Hx|done..].
    + apply Hf. left.
    + apply IH. intros z Hz. apply Hf. by right.
Qed.

Lemma StronglySorted_seqZ m n : StronglySorted Z.lt (seqZ m n).
Proof.
  destruct (decide (0 ≤ n)) as [Hn|Hn]; [|rewrite seqZ_nil by lia; constructor].
  revert m. pattern n. apply natlike_ind; [|clear n Hn|done].
  - intros m. rewrite seqZ_nil by lia. constructor.
  - intros n Hn IH m. rewrite seqZ_cons by lia.
    replace (Z.pred (Z.succ n)) with n by lia. constructor; [apply IH|].
    apply Forall_seqZ. lia.
Qed.

Lemma length_bind_sumZ {B} (f : Z → list B) (l : list Z) :
  Z.of_nat (length (l ≫= f)) = sumZ (λ x, Z.of_nat (length (f x))) l.
Proof.
  induction l as [|x l IH]; [done|].
  rewrite bind_cons, length_app. simpl. lia.
Qed.

Lemma sumZ_ext f g l : (∀ x, x ∈ l → f x = g x) → sumZ f l = sumZ g l.
Proof.
  induction l as [|x l IH]; intros Hfg; [done|]. simpl.
  rewrite Hfg by left. rewrite IH; [done|]. intros y Hy. apply Hfg. by right.
Qed.

Lemma sumZ_app f l1 l2 : sumZ f (l1 ++ l2) = sumZ f l1 + sumZ f l2.
Proof. unfold sumZ. induction l1 as [|x l1 IH]; simpl; lia. Qed.

Lemma sumZ_scale a f l : a * sumZ f l = sumZ (λ x, a * f x) l.
Proof. unfold sumZ. induction l as [|x l IH]; simpl; lia. Qed.

Lemma sumZ_range_succ f n :
  0 ≤ n → sumZ f (range (Z.succ n)) = sumZ f (range n) + f n.
Proof.
  intros Hn. unfold range.
  rewrite <-(Z2Nat.id n) at 1 by done. rewrite <-Nat2Z.inj_succ, seqZ_S.
  rewrite sumZ_app, Z2Nat.id by done. f_equal.
  rewrite Z.add_0_l. unfold sumZ. simpl. lia.
Qed.

(** Closed forms of the sums met when counting the loop tuples. *)
Lemma sumZ_indicator_le m n :
  0 ≤ n →
  sumZ (λ g, if decide (g ≤ m) then 1 else 0) (range n)
  = Z.max 0 (Z.min n (m + 1)).
Proof.
  intros Hn. pattern n. apply natlike_ind; [|clear n Hn|done].
  { change (sumZ _ (range 0)) with 0. lia. }
  intros n Hn IH. rewrite sumZ_range_succ, IH by done.
  case_decide; lia.
Qed.

Lemma sumZ_descending m n :
  0 ≤ n → -1 ≤ m →
  2 * sumZ (λ c, Z.max 0 (m - c + 1)) (range n)
  = Z.min n (m + 1) * (2 * m - Z.min n (m + 1) + 3).
Proof.
  intros Hn Hm. pattern n. apply natlike_ind; [|clear n Hn|done].
  { change (sumZ _ (range 0)) with 0. rewrite Z.min_l by lia. lia. }
  intros n Hn IH. rewrite sumZ_range_succ by done.
  destruct (decide (n ≤ m)).
  - rewrite !Z.min_l in * by lia. nia.
  - rewrite !Z.min_r in * by lia. nia.
Qed.

Lemma sumZ_triangles k n :
  0 ≤ n →
  3 * sumZ (λ a, (k - a + 1) * (k - a + 2)) (range n)
  = (k + 1) * (k + 2) * (k + 3) - (k - n + 1) * (k - n + 2) * (k - n + 3).
Proof.
  intros Hn. pattern n. apply natlike_ind; [|clear n Hn|done].
  { change (sumZ _ (range 0)) with 0. lia. }
  intros n Hn IH. rewrite sumZ_range_succ by done. nia.
Qed.

Lemma choose_1 n : choose n 1 = n.
Proof. induction n as [|n IH]; simpl in *; [done|]. destruct n; simpl in *; lia. Qed.

Lemma choose_2 n : (2 * choose (S n) 2 = n * S n)%nat.
Proof.
  induction n as [|n IH]; [done|].
  change (choose (S (S n)) 2) with (choose (S n) 1 + choose (S n) 2)%nat.
  rewrite choose_1. lia.
Qed.

Lemma choose_3 n : (6 * choose (n + 3) 3 = (n + 1) * (n + 2) * (n + 3))%nat.
Proof.
  induction n as [|n IH]; [done|].
  change (choose (S n + 3) 3) with (choose (n + 3) 2 + choose (n + 3) 3)%nat.
  pose proof (choose_2 (n + 2)) as H2.
  replace (S (n + 2)) with (n + 3)%nat in H2 by lia. nia.
Qed.

End ListHelpers.

Section GroupedVocabulary.
Implicit Types (k a c g t : Z).

Ltac inv_loops :=
  repeat match goal with
  | H : _ ∈ _ ≫= _ |- _ =>
      let x := fresh "x" in
      let Hx := fresh "Hx" in
      apply list_elem_of_bind in H as (x & H & Hx%elem_of_range)
  | H : _ ∈ (if decide ?P then _ else _) |- _ =>
      destruct (decide P);
      [apply list_elem_of_singleton in H; simplify_eq|by apply elem_of_nil in H]
  end.

Lemma create_kgroup_as_loop_tuples k :
  KGroupKMerTransformer.create_kgroup_kmer_permutations k
  = key_of_loop_tuple <$> loop_tuples k.
Proof.
  unfold KGroupKMerTransformer.create_kgroup_kmer_permutations, loop_tuples.
  rewrite fmap_bind_comm. apply list_bind_ext; [intros a|done].
  rewrite fmap_bind_comm. apply list_bind_ext; [intros c|done].
  rewrite fmap_bind_comm. apply list_bind_ext; [intros g|done].
  rewrite fmap_bind_comm. apply list_bind_ext; [intros t|done].
  by case_decide.
Qed.

Lemma elem_of_loop_tuples k a c g t :
  (a, c, g, t) ∈ loop_tuples k
  ↔ 0 ≤ a ∧ 0 ≤ c ∧ 0 ≤ g ∧ 0 ≤ t ∧ a + c + g + t = k.
Proof.
  unfold loop_tuples. split.
  - intros H. inv_loops. lia.
  - intros (Ha & Hc & Hg & Ht & Hsum).
    apply list_elem_of_bind. exists a. split; [|apply elem_of_range; lia].
    apply list_elem_of_bind. exists c. split; [|apply elem_of_range; lia].
    apply list_elem_of_bind. exists g. split; [|apply elem_of_range; lia].
    apply list_elem_of_bind. exists t. split; [|apply elem_of_range; lia].
    rewrite decide_True by done. left.
Qed.

Lemma loop_lt_irrefl p : ¬ loop_lt p p.
Proof. destruct p as [[[a c] g] t]. unfold loop_lt. lia. Qed.

Lemma StronglySorted_NoDup {A} (R : relation A) (l : list A) :
  (∀ x, ¬ R x x) → StronglySorted R l → NoDup l.
Proof.
  intros Hirr. induction 1 as [|x l _ IH Hx]; constructor; [|done].
  intros Hin. rewrite Forall_forall in Hx. by apply (Hirr x), Hx.
Qed.

Lemma StronglySorted_range n : StronglySorted Z.lt (range n).
Proof. apply StronglySorted_seqZ. Qed.

(** The loop tuples come out in strictly ascending lexicographic order. *)
Lemma StronglySorted_loop_tuples k : StronglySorted loop_lt (loop_tuples k).
Proof.
  unfold loop_tuples.
  apply (StronglySorted_bind Z.lt); [apply StronglySorted_range| |].
  - intros a _.
    apply (StronglySorted_bind Z.lt); [apply StronglySorted_range| |].
    + intros c _.
      apply (StronglySorted_bind Z.lt); [apply StronglySorted_range| |].
      * intros g _.
        apply (StronglySorted_bind Z.lt); [apply StronglySorted_range| |].
        -- intros t _. case_decide; repeat constructor.
        -- intros t1 t2 y1 y2 Hlt H1 H2. inv_loops. unfold loop_lt. lia.
      * intros g1 g2 y1 y2 Hlt H1 H2. inv_loops. unfold loop_lt. lia.
    + intros c1 c2 y1 y2 Hlt H1 H2. inv_loops. unfold loop_lt. lia.
  - intros a1 a2 y1 y2 Hlt H1 H2. inv_loops. unfold loop_lt. lia.
Qed.

Lemma NoDup_loop_tuples k : NoDup (loop_tuples k).
Proof.
  eapply StronglySorted_NoDup;
    [apply loop_lt_irrefl|apply StronglySorted_loop_tuples].
Qed.

Global Instance key_of_loop_tuple_inj : Inj (=) (=) key_of_loop_tuple.
Proof.
  intros [[[a c] g] t] [[[a' c'] g'] t'].
  unfold key_of_loop_tuple, KGroupKMerTransformer.make_key_string.
  by intros [= -> -> -> ->].
Qed.

(** A key [(a, c, t, g)] is in the vocabulary exactly when its components
    are non-negative and sum to [k]. *)
Lemma elem_of_create_kgroup k a c t g :
  KGroupKMerTransformer.make_key_string a c t g
    ∈ KGroupKMerTransformer.create_kgroup_kmer_permutations k
  ↔ 0 ≤ a ∧ 0 ≤ c ∧ 0 ≤ g ∧ 0 ≤ t ∧ a + c + g + t = k.
Proof.
  rewrite create_kgroup_as_loop_tuples, <-elem_of_loop_tuples.
  change (KGroupKMerTransformer.make_key_string a c t g)
    with (key_of_loop_tuple (a, c, g, t)).
  by rewrite (list_elem_of_fmap_inj key_of_loop_tuple).
Qed.

Lemma NoDup_create_kgroup k :
  NoDup (KGroupKMerTransformer.create_kgroup_kmer_permutations k).
Proof.
  rewrite create_kgroup_as_loop_tuples.
  apply NoDup_fmap_2; [apply _|apply NoDup_loop_tuples].
Qed.

Lemma sumZ_indicator_eq m n :
  0 ≤ n →
  sumZ (λ t, if decide (t = m) then 1 else 0) (range n)
  = if decide (0 ≤ m < n) then 1 else 0.
Proof.
  intros Hn. pattern n. apply natlike_ind; [|clear n Hn|done].
  { change (sumZ _ (range 0)) with 0. by rewrite decide_False by lia. }
  intros n Hn IH. rewrite sumZ_range_succ, IH by done.
  repeat case_decide; lia.
Qed.

(** Counting the loop tuples, loop by loop from the innermost. *)
Lemma length_loop_tuples k :
  0 ≤ k →
  6 * Z.of_nat (length (loop_tuples k)) = (k + 1) * (k + 2) * (k + 3).
Proof.
  intros Hk. unfold loop_tuples. rewrite length_bind_sumZ.
  replace 6 with (3 * 2) by done. rewrite <-Z.mul_assoc, (sumZ_scale 2).
  rewrite (sumZ_ext _ (λ a, (k - a + 1) * (k - a + 2))).
  { rewrite sumZ_triangles by lia. nia. }
  intros a Ha%elem_of_range. rewrite length_bind_sumZ.
  rewrite (sumZ_ext _ (λ c, Z.max 0 (k - a - c + 1))).
  { rewrite sumZ_descending by lia. rewrite Z.min_r by lia. nia. }
  intros c Hc%elem_of_range. rewrite length_bind_sumZ.
  rewrite (sumZ_ext _ (λ g, if decide (g ≤ k - a - c) then 1 else 0)).
  { rewrite sumZ_indicator_le by lia. lia. }
  intros g Hg%elem_of_range. rewrite length_bind_sumZ.
  rewrite (sumZ_ext _ (λ t, if decide (t = k - a - c - g) then 1 else 0)).
  { rewrite sumZ_indicator_eq by lia. repeat case_decide; lia. }
  intros t _. repeat case_decide; simpl; lia.
Qed.

Lemma length_create_kgroup k :
  0 ≤ k →
  length (KGroupKMerTransformer.create_kgroup_kmer_permutations k)
  = choose (Z.to_nat k + 3) 3.
Proof.
  intros Hk. rewrite create_kgroup_as_loop_tuples, length_fmap.
  pose proof (length_loop_tuples k Hk) as Hlen.
  pose proof (choose_3 (Z.to_nat k)) as Hch. nia.
Qed.

End GroupedVocabulary.

(** * The vocabularies *)

(** C2. For every [k >= 1] the exact-mode enumerator returns a list that
    contains every string of length [k] over A, C, G, T and nothing else,
    each exactly once, so that it has [4^k] entries, in ascending
    lexicographic order. *)
Theorem exact_vocabulary_all_kmers_sorted (k : Z) :
  1 ≤ k →
  ∃ v, KMerTransformer.create_kmer_permutations k = Ok v
     ∧ (∀ w, w ∈ v ↔ is_kmer k w)
     ∧ NoDup v
     ∧ Z.of_nat (length v) = 4 ^ k
     ∧ StronglySorted String.le v.
Proof.
  intros Hk.
  destruct (create_kmer_permutations_spec k) as (v & Hv & Hmem & Hnd & Hs & Hp);
    [lia|].
  exists v. split_and!; [done..| |done].
  rewrite Hp, length_fmap, length_words. rewrite !Z2Nat.id; lia.
Qed.

Lemma exact_vocabulary_all_kmers_sorted_witness :
  1 ≤ 2 ∧
  ∃ v, KMerTransformer.create_kmer_permutations 2 = Ok v
     ∧ (∀ w, w ∈ v ↔ is_kmer 2 w)
     ∧ NoDup v
     ∧ Z.of_nat (length v) = 4 ^ 2
     ∧ StronglySorted String.le v.
Proof. split; [lia|]. apply (exact_vocabulary_all_kmers_sorted 2). lia. Defined.

(** C3. For every [k >= 1] the grouped-mode enumerator returns
    [C(k+3,3)] distinct keys; a tuple is a key exactly when its components
    are non-negative and sum to [k]; the keys are the images of the loop
    tuples [(a, c, g, t)], taken in ascending lexicographic order of
    [(a, c, g, t)], under the field order [(a, c, t, g)], so that the first
    key is [(0, 0, k, 0)]. *)
Theorem grouped_vocabulary_compositions_in_loop_order (k : Z) :
  1 ≤ k →
  let v := KGroupKMerTransformer.create_kgroup_kmer_permutations k in
  length v = choose (Z.to_nat k + 3) 3
  ∧ 6 * Z.of_nat (length v) = (k + 1) * (k + 2) * (k + 3)
  ∧ NoDup v
  ∧ (∀ a c t g, (a, c, t, g) ∈ v
       ↔ 0 ≤ a ∧ 0 ≤ c ∧ 0 ≤ g ∧ 0 ≤ t ∧ a + c + g + t = k)
  ∧ (∃ l : list loop_tuple,
       v = (λ p, let '(a, c, g, t) := p in (a, c, t, g)) <$> l
       ∧ StronglySorted loop_lt l
       ∧ ∀ a c g t, (a, c, g, t) ∈ l
           ↔ 0 ≤ a ∧ 0 ≤ c ∧ 0 ≤ g ∧ 0 ≤ t ∧ a + c + g + t = k)
  ∧ head v = Some (0, 0, k, 0).
Proof.
  intros Hk v. split_and!.
  - apply length_create_kgroup. lia.
  - unfold v. rewrite create_kgroup_as_loop_tuples, length_fmap.
    apply length_loop_tuples. lia.
  - apply NoDup_create_kgroup.
  - intros a c t g. apply (elem_of_create_kgroup k a c t g).
  - exists (loop_tuples k). split_and!.
    + apply create_kgroup_as_loop_tuples.
    + apply StronglySorted_loop_tuples.
    + apply elem_of_loop_tuples.
  - unfold v. rewrite create_kgroup_as_loop_tuples.
    pose proof (StronglySorted_loop_tuples k) as Hs.
    assert ((0, 0, 0, k) ∈ loop_tuples k) as Hin
      by (apply elem_of_loop_tuples; lia).
    destruct (loop_tuples k) as [|[[[a c] g] t] l] eqn:E.
    { by apply elem_of_nil in Hin. }
    assert ((a, c, g, t) ∈ loop_tuples k) as Hhd by (rewrite E; left).
    apply elem_of_loop_tuples in Hhd.
    apply StronglySorted_cons in Hs as [Hall _]. rewrite Forall_forall in Hall.
    apply elem_of_cons in Hin as [Heq|Hin].
    + by inversion Heq.
    + apply Hall in Hin. unfold loop_lt in Hin. lia.
Qed.

Lemma grouped_vocabulary_compositions_in_loop_order_witness :
  1 ≤ 2 ∧
  let v := KGroupKMerTransformer.create_kgroup_kmer_permutations 2 in
  length v = choose (Z.to_nat 2 + 3) 3
  ∧ 6 * Z.of_nat (length v) = (2 + 1) * (2 + 2) * (2 + 3)
  ∧ NoDup v
  ∧ (∀ a c t g, (a, c, t, g) ∈ v
       ↔ 0 ≤ a ∧ 0 ≤ c ∧ 0 ≤ g ∧ 0 ≤ t ∧ a + c + g + t = 2)
  ∧ (∃ l : list loop_tuple,
       v = (λ p, let '(a, c, g, t) := p in (a, c, t, g)) <$> l
       ∧ StronglySorted loop_lt l
       ∧ ∀ a c g t, (a, c, g, t) ∈ l
           ↔ 0 ≤ a ∧ 0 ≤ c ∧ 0 ≤ g ∧ 0 ≤ t ∧ a + c + g + t = 2)
  ∧ head v = Some (0, 0, 2, 0).
Proof.
  split; [lia|]. apply (grouped_vocabulary_compositions_in_loop_order 2). lia.
Defined.

(** * The per-sequence transforms *)

Section TransformFacts.
Implicit Types (seq : string) (k i : Z).

(** A run of the counting loop in which every window key is present: it
    succeeds, keeps the keys, adds [step] per hit to each entry and [step]
    per window to the total. *)
Lemma counting_run {K} `{EqDecision K} (key_of : Z → K) b seq n (ks : list K) :
  (0 < n → 0 < len seq) →
  (∀ i, 0 ≤ i < n → key_of i ∈ ks) →
  ∃ row, counting_loop key_of (increment b seq) (range n) (fromkeys ks 0%Qc) = Ok row
       ∧ (NoDup ks → keys row = ks)
       ∧ (∀ x, x ∈ keys row ↔ x ∈ ks)
       ∧ (∀ x, x ∈ ks →
            lookup_key row x
            = Some (step b seq * Qc_of_Z (Z.of_nat (hits key_of x (range n))))%Qc)
       ∧ total row = (step b seq * Qc_of_Z (Z.max 0 n))%Qc.
Proof.
  intros Hlen Hkeys.
  destruct (decide (0 < n)) as [Hn|Hn].
  - rewrite increment_ok by auto. fold (step b seq).
    destruct (counting_loop_ok key_of (step b seq) (range n) (fromkeys ks 0%Qc))
      as (row & Hrun & Hk & Hl & Ht).
    { intros i Hi%elem_of_range. apply elem_of_keys_fromkeys. auto. }
    exists row. split_and!; [done|..].
    + intros Hnd. by rewrite Hk, keys_fromkeys.
    + intros x. by rewrite Hk, elem_of_keys_fromkeys.
    + intros x Hx. rewrite Hl, lookup_key_fromkeys by done. simpl.
      f_equal. ring.
    + rewrite Ht, total_fromkeys_zero, length_range by lia.
      rewrite Z.max_r by lia. ring.
  - unfold range. rewrite seqZ_nil by lia. rewrite counting_loop_nil.
    eexists. split_and!; [done|..].
    + apply keys_fromkeys.
    + apply elem_of_keys_fromkeys.
    + intros x Hx. rewrite lookup_key_fromkeys by done.
      change (Z.of_nat (hits key_of x [])) with 0. rewrite Z2Qc_inj_0.
      f_equal. ring.
    + rewrite total_fromkeys_zero, Z.max_l, Z2Qc_inj_0 by lia. ring.
Qed.

(** A run in which the window at offset [i] has a key outside the
    vocabulary. *)
Lemma counting_run_keyerror {K} `{EqDecision K} (key_of : Z → K) b seq n
    (ks : list K) i :
  (0 < n → 0 < len seq) →
  0 ≤ i < n → key_of i ∉ ks →
  counting_loop key_of (increment b seq) (range n) (fromkeys ks 0%Qc)
  = Raise KeyError.
Proof.
  intros Hlen Hi Hmiss. rewrite increment_ok by (apply Hlen; lia).
  apply (counting_loop_keyerror _ _ _ _ i).
  - by apply elem_of_range.
  - by rewrite elem_of_keys_fromkeys.
Qed.

Lemma str_count_occ w c : str_count w c = Z.of_nat (occ c (chars w)).
Proof. done. Qed.

(** The key of a k-mer is a composition of [k]. *)
Lemma window_key_in_vocabulary k w :
  is_kmer k w →
  KGroupKMerTransformer.window_key w
    ∈ KGroupKMerTransformer.create_kgroup_kmer_permutations k.
Proof.
  intros [Hlen Hbases]. unfold KGroupKMerTransformer.window_key.
  apply elem_of_create_kgroup. rewrite !str_count_occ.
  pose proof (occ_bases_eq _ Hbases). rewrite len_chars in Hlen. lia.
Qed.

(** The four counters of a window with a foreign character sum to less than
    the window's length, so its key is no composition of [k]. *)
Lemma window_key_coverage_lt w :
  ¬ Forall (λ c, c ∈ bases) (chars w) →
  0 ≤ str_count w "A" + str_count w "C" + str_count w "G" + str_count w "T"
    < len w.
Proof.
  intros Hnot. rewrite !str_count_occ, len_chars.
  pose proof (occ_bases_lt _ Hnot). lia.
Qed.

Lemma window_key_not_in_vocabulary w :
  ¬ Forall (λ c, c ∈ bases) (chars w) →
  KGroupKMerTransformer.window_key w
    ∉ KGroupKMerTransformer.create_kgroup_kmer_permutations (len w).
Proof.
  intros Hnot Hin. unfold KGroupKMerTransformer.window_key in Hin.
  apply elem_of_create_kgroup in Hin.
  pose proof (window_key_coverage_lt w Hnot). lia.
Qed.

End TransformFacts.

(** C7. When the sequence is shorter than [k] the loop body never runs:
    whatever the normalize flag, in exact and in grouped mode, the row is
    produced and holds every vocabulary key, and only those, each with
    value 0. *)
Theorem short_sequence_row_all_zero
    (se : KMerTransformer.t) (sg : KGroupKMerTransformer.t)
    (seq : string) (k : Z)
    (perms : list string) (gperms : list KGroupKMerTransformer.key) :
  len seq < k →
  (∃ row, KMerTransformer.kmer_transform_seq se seq k perms = Ok row
        ∧ (∀ w, w ∈ keys row ↔ w ∈ perms)
        ∧ (∀ w, w ∈ perms → lookup_key row w = Some 0%Qc)
        ∧ Forall (λ n, n = 0%Qc) (values row))
  ∧ (∃ row, KGroupKMerTransformer.kmer_transform_seq sg seq k gperms = Ok row
        ∧ (∀ w, w ∈ keys row ↔ w ∈ gperms)
        ∧ (∀ w, w ∈ gperms → lookup_key row w = Some 0%Qc)
        ∧ Forall (λ n, n = 0%Qc) (values row)).
Proof.
  intros Hshort. split.
  - rewrite exact_transform_loop. unfold range. rewrite seqZ_nil by lia.
    rewrite counting_loop_nil. eexists. split_and!; [done|..].
    + apply elem_of_keys_fromkeys.
    + intros w Hw. by apply lookup_key_fromkeys.
    + apply values_fromkeys.
  - rewrite grouped_transform_loop. unfold range. rewrite seqZ_nil by lia.
    rewrite counting_loop_nil. eexists. split_and!; [done|..].
    + apply elem_of_keys_fromkeys.
    + intros w Hw. by apply lookup_key_fromkeys.
    + apply values_fromkeys.
Qed.

Lemma short_sequence_row_all_zero_witness :
  len "A" < 2 ∧
  (∃ row, KMerTransformer.kmer_transform_seq
            (KMerTransformer.mk 2 true true None) "A" 2 ["AA"; "AC"] = Ok row
        ∧ (∀ w, w ∈ keys row ↔ w ∈ ["AA"; "AC"])
        ∧ (∀ w, w ∈ ["AA"; "AC"] → lookup_key row w = Some 0%Qc)
        ∧ Forall (λ n, n = 0%Qc) (values row))
  ∧ (∃ row, KGroupKMerTransformer.kmer_transform_seq
              (KGroupKMerTransformer.mk 2 true true None) "A" 2
              [(2, 0, 0, 0); (1, 1, 0, 0)] = Ok row
        ∧ (∀ w, w ∈ keys row ↔ w ∈ [(2, 0, 0, 0); (1, 1, 0, 0)])
        ∧ (∀ w, w ∈ [(2, 0, 0, 0); (1, 1, 0, 0)] → lookup_key row w = Some 0%Qc)
        ∧ Forall (λ n, n = 0%Qc) (values row)).
Proof.
  assert (len "A" < 2) as H by (vm_compute; reflexivity).
  split; [exact H|].
  exact (short_sequence_row_all_zero
           (KMerTransformer.mk 2 true true None)
           (KGroupKMerTransformer.mk 2 true true None)
           "A" 2 ["AA"; "AC"] [(2, 0, 0, 0); (1, 1, 0, 0)] H).
Defined.

Section RowTotals.
Implicit Types (seq : string) (k : Z).

(** The exact transform on a sequence over the alphabet, against the
    fitted vocabulary. *)
Lemma exact_transform_run (se : KMerTransformer.t) seq k :
  0 ≤ k → (k < len seq → 0 < len seq) →
  Forall (λ c, c ∈ bases) (chars seq) →
  ∃ v row,
    KMerTransformer.create_kmer_permutations k = Ok v
    ∧ NoDup v ∧ (∀ w, w ∈ v ↔ is_kmer k w)
    ∧ KMerTransformer.kmer_transform_seq se seq k v = Ok row
    ∧ keys row = v
    ∧ (∀ w, w ∈ v →
         lookup_key row w
         = Some (step (KMerTransformer.normalize se) seq
                 * Qc_of_Z (Z.of_nat (hits (window seq k) w (range (len seq - k)))))%Qc)
    ∧ total row
      = (step (KMerTransformer.normalize se) seq * Qc_of_Z (Z.max 0 (len seq - k)))%Qc.
Proof.
  intros Hk Hlen Hseq.
  destruct (create_kmer_permutations_spec k Hk) as (v & Hv & Hmem & Hnd & _).
  destruct (counting_run (window seq k) (KMerTransformer.normalize se) seq
              (len seq - k) v) as (row & Hrun & Hkeys & _ & Hl & Ht).
  { intros ?. apply Hlen. lia. }
  { intros i Hi. apply Hmem. by apply window_is_kmer. }
  exists v, row. rewrite exact_transform_loop. split_and!; auto.
Qed.

(** The grouped transform on a sequence over the alphabet, against the
    fitted vocabulary. *)
Lemma grouped_transform_run (sg : KGroupKMerTransformer.t) seq k :
  0 ≤ k → (k < len seq → 0 < len seq) →
  Forall (λ c, c ∈ bases) (chars seq) →
  ∃ row,
    KGroupKMerTransformer.kmer_transform_seq sg seq k
      (KGroupKMerTransformer.create_kgroup_kmer_permutations k) = Ok row
    ∧ keys row = KGroupKMerTransformer.create_kgroup_kmer_permutations k
    ∧ (∀ x, x ∈ KGroupKMerTransformer.create_kgroup_kmer_permutations k →
         lookup_key row x
         = Some (step (KGroupKMerTransformer.normalize sg) seq
                 * Qc_of_Z (Z.of_nat
                     (hits (λ i, KGroupKMerTransformer.window_key (window seq k i))
                        x (range (len seq - k)))))%Qc)
    ∧ total row
      = (step (KGroupKMerTransformer.normalize sg) seq
         * Qc_of_Z (Z.max 0 (len seq - k)))%Qc.
Proof.
  intros Hk Hlen Hseq.
  destruct (counting_run
              (λ i, KGroupKMerTransformer.window_key (window seq k i))
              (KGroupKMerTransformer.normalize sg) seq (len seq - k)
              (KGroupKMerTransformer.create_kgroup_kmer_permutations k))
    as (row & Hrun & Hkeys & _ & Hl & Ht).
  { intros ?. apply Hlen. lia. }
  { intros i Hi. by apply window_key_in_vocabulary, window_is_kmer. }
  exists row. rewrite grouped_transform_loop. split_and!; auto.
  apply Hkeys, NoDup_create_kgroup.
Qed.

End RowTotals.

(** C1. In raw mode, for a sequence over A, C, G, T of length [L >= k] with
    [k >= 1], in exact mode and in grouped mode alike, the row has the
    vocabulary's keys and the entry of a key is the number of offsets [i]
    with [0 <= i < L - k] whose window [seq[i:i+k]] is that key (has that
    composition key, in grouped mode): the window at the last valid offset
    [L - k] is not counted, and the values of the row sum to [L - k].  For
    [k = 2] and the sequence AAAA the entry of AA (of the composition of AA
    in grouped mode) is 2 and every other entry is 0. *)
Theorem raw_row_total_is_L_minus_k
    (se : KMerTransformer.t) (sg : KGroupKMerTransformer.t)
    (seq : string) (k : Z) :
  1 ≤ k → k ≤ len seq →
  Forall (λ c, c ∈ bases) (chars seq) →
  KMerTransformer.normalize se = false →
  KGroupKMerTransformer.normalize sg = false →
  (∃ v row, KMerTransformer.create_kmer_permutations k = Ok v
          ∧ KMerTransformer.kmer_transform_seq se seq k v = Ok row
          ∧ keys row = v
          ∧ (∀ w, w ∈ v →
               lookup_key row w
               = Some (Qc_of_Z (Z.of_nat
                         (length (filter (λ i, slice seq i (i + k) = w)
                                    (range (len seq - k)))))))
          ∧ total row = Qc_of_Z (len seq - k))
  ∧ (∃ row, KGroupKMerTransformer.kmer_transform_seq sg seq k
              (KGroupKMerTransformer.create_kgroup_kmer_permutations k) = Ok row
          ∧ keys row = KGroupKMerTransformer.create_kgroup_kmer_permutations k
          ∧ (∀ x, x ∈ KGroupKMerTransformer.create_kgroup_kmer_permutations k →
               lookup_key row x
               = Some (Qc_of_Z (Z.of_nat
                         (length
                            (filter
                               (λ i, KGroupKMerTransformer.window_key
                                       (slice seq i (i + k)) = x)
                               (range (len seq - k)))))))
          ∧ total row = Qc_of_Z (len seq - k))
  ∧ (∀ i, i ∈ range (len seq - k) ↔ 0 ≤ i < len seq - k)
  ∧ (∃ v row, KMerTransformer.create_kmer_permutations 2 = Ok v
          ∧ KMerTransformer.kmer_transform_seq se "AAAA" 2 v = Ok row
          ∧ lookup_key row "AA" = Some (Qc_of_Z 2)
          ∧ ∀ w, w ∈ v → w ≠ "AA" → lookup_key row w = Some (Qc_of_Z 0))
  ∧ (∃ row, KGroupKMerTransformer.kmer_transform_seq sg "AAAA" 2
              (KGroupKMerTransformer.create_kgroup_kmer_permutations 2) = Ok row
          ∧ lookup_key row (2, 0, 0, 0) = Some (Qc_of_Z 2)
          ∧ ∀ x, x ∈ KGroupKMerTransformer.create_kgroup_kmer_permutations 2 →
                 x ≠ (2, 0, 0, 0) → lookup_key row x = Some (Qc_of_Z 0)).
Proof.
  intros Hk HL Hseq Hraw_e Hraw_g.
  assert (range (len "AAAA" - 2) = [0; 1]) as Hixs by (vm_compute; reflexivity).
  assert (Forall (λ c, c ∈ bases) (chars "AAAA")) as HA
    by (apply (bool_decide_unpack _); vm_compute; reflexivity).
  assert (is_kmer 2 "AA") as HAA.
  { split; [vm_compute; reflexivity|].
    apply (bool_decide_unpack _); vm_compute; reflexivity. }
  assert (window "AAAA" 2 0 = "AA") as Hw0 by (vm_compute; reflexivity).
  assert (window "AAAA" 2 1 = "AA") as Hw1 by (vm_compute; reflexivity).
  assert (KGroupKMerTransformer.window_key "AA" = (2, 0, 0, 0)) as Hkey
    by (vm_compute; reflexivity).
  assert (∀ w, hits (window "AAAA" 2) w [0; 1]
               = if decide ("AA" = w) then 2%nat else 0%nat) as Hhits_e.
  { intros w. unfold hits. rewrite !filter_cons, filter_nil, Hw0, Hw1.
    by case_decide. }
  assert (∀ x, hits (λ i, KGroupKMerTransformer.window_key (window "AAAA" 2 i))
                 x [0; 1]
               = if decide ((2, 0, 0, 0) = x) then 2%nat else 0%nat) as Hhits_g.
  { intros x. unfold hits. rewrite !filter_cons, filter_nil, Hw0, Hw1, Hkey.
    by repeat case_decide. }
  split_and!.
  - destruct (exact_transform_run se seq k)
      as (v & row & Hv & _ & _ & Hrun & Hkeys & Hl & Ht); [lia|lia|done|].
    exists v, row. split_and!; [done..| |].
    + intros w Hw. rewrite (Hl w Hw), Hraw_e. unfold step, hits, window.
      by rewrite Qcmult_1_l.
    + rewrite Ht, Hraw_e, Z.max_r by lia. unfold step. by rewrite Qcmult_1_l.
  - destruct (grouped_transform_run sg seq k) as (row & Hrun & Hkeys & Hl & Ht);
      [lia|lia|done|].
    exists row. split_and!; [done..| |].
    + intros x Hx. rewrite (Hl x Hx), Hraw_g. unfold step, hits, window.
      by rewrite Qcmult_1_l.
    + rewrite Ht, Hraw_g, Z.max_r by lia. unfold step. by rewrite Qcmult_1_l.
  - intros i. apply elem_of_range.
  - destruct (exact_transform_run se "AAAA" 2)
      as (v & row & Hv & _ & Hmem & Hrun & _ & Hl & _); [lia|done|done|].
    exists v, row. split_and!; [done..| |].
    + rewrite Hl by (by apply Hmem).
      rewrite Hraw_e, Hixs, Hhits_e, decide_True by done.
      unfold step. by rewrite Qcmult_1_l.
    + intros w Hw Hne. rewrite (Hl w Hw), Hraw_e, Hixs, Hhits_e.
      rewrite decide_False by done. unfold step. by rewrite Qcmult_1_l.
  - destruct (grouped_transform_run sg "AAAA" 2) as (row & Hrun & _ & Hl & _);
      [lia|done|done|].
    exists row. split_and!; [done| |].
    + rewrite Hl by (by apply (elem_of_create_kgroup 2 2 0 0 0)).
      rewrite Hraw_g, Hixs, Hhits_g, decide_True by done.
      unfold step. by rewrite Qcmult_1_l.
    + intros x Hx Hne. rewrite (Hl x Hx), Hraw_g, Hixs, Hhits_g.
      rewrite decide_False by done. unfold step. by rewrite Qcmult_1_l.
Qed.

Lemma raw_row_total_is_L_minus_k_witness :
  (1 ≤ 2 ∧ 2 ≤ len "AACGT"
   ∧ Forall (λ c, c ∈ bases) (chars "AACGT")
   ∧ KMerTransformer.normalize (KMerTransformer.mk 2 false true None) = false
   ∧ KGroupKMerTransformer.normalize (KGroupKMerTransformer.mk 2 false true None)
     = false)
  ∧ (∃ v row, KMerTransformer.create_kmer_permutations 2 = Ok v
          ∧ KMerTransformer.kmer_transform_seq (KMerTransformer.mk 2 false true None) "AACGT" 2 v = Ok row
          ∧ keys row = v
          ∧ (∀ w, w ∈ v →
               lookup_key row w
               = Some (Qc_of_Z (Z.of_nat
                         (length (filter (λ i, slice "AACGT" i (i + 2) = w)
                                    (range (len "AACGT" - 2)))))))
          ∧ total row = Qc_of_Z (len "AACGT" - 2))
  ∧ (∃ row, KGroupKMerTransformer.kmer_transform_seq (KGroupKMerTransformer.mk 2 false true None) "AACGT" 2
              (KGroupKMerTransformer.create_kgroup_kmer_permutations 2) = Ok row
          ∧ keys row = KGroupKMerTransformer.create_kgroup_kmer_permutations 2
          ∧ (∀ x, x ∈ KGroupKMerTransformer.create_kgroup_kmer_permutations 2 →
               lookup_key row x
               = Some (Qc_of_Z (Z.of_nat
                         (length
                            (filter
                               (λ i, KGroupKMerTransformer.window_key
                                       (slice "AACGT" i (i + 2)) = x)
                               (range (len "AACGT" - 2)))))))
          ∧ total row = Qc_of_Z (len "AACGT" - 2))
  ∧ (∀ i, i ∈ range (len "AACGT" - 2) ↔ 0 ≤ i < len "AACGT" - 2)
  ∧ (∃ v row, KMerTransformer.create_kmer_permutations 2 = Ok v
          ∧ KMerTransformer.kmer_transform_seq (KMerTransformer.mk 2 false true None) "AAAA" 2 v = Ok row
          ∧ lookup_key row "AA" = Some (Qc_of_Z 2)
          ∧ ∀ w, w ∈ v → w ≠ "AA" → lookup_key row w = Some (Qc_of_Z 0))
  ∧ (∃ row, KGroupKMerTransformer.kmer_transform_seq (KGroupKMerTransformer.mk 2 false true None) "AAAA" 2
              (KGroupKMerTransformer.create_kgroup_kmer_permutations 2) = Ok row
          ∧ lookup_key row (2, 0, 0, 0) = Some (Qc_of_Z 2)
          ∧ ∀ x, x ∈ KGroupKMerTransformer.create_kgroup_kmer_permutations 2 →
                 x ≠ (2, 0, 0, 0) → lookup_key row x = Some (Qc_of_Z 0)).
Proof.
  assert (1 ≤ 2) as H1 by lia.
  assert (2 ≤ len "AACGT") as H2 by (vm_compute; discriminate).
  assert (Forall (λ c, c ∈ bases) (chars "AACGT")) as H3
    by (apply (bool_decide_unpack _); vm_compute; reflexivity).
  split; [by split_and!|].
  exact (raw_row_total_is_L_minus_k
           (KMerTransformer.mk 2 false true None)
           (KGroupKMerTransformer.mk 2 false true None)
           "AACGT" 2 H1 H2 H3 eq_refl eq_refl).
Defined.

(** The raw rows of AACGT for [k = 1]: the four counted windows are A, A,
    C, G; the final T, at offset [L - k], is not counted. *)
Example raw_row_of_AACGT :
  KMerTransformer.create_kmer_permutations 1 = Ok ["A"; "C"; "G"; "T"]
  ∧ KMerTransformer.kmer_transform_seq (KMerTransformer.mk 1 false true None)
      "AACGT" 1 ["A"; "C"; "G"; "T"]
    = Ok [("A", Qc_of_Z 2); ("C", Qc_of_Z 1); ("G", Qc_of_Z 1); ("T", Qc_of_Z 0)]
  ∧ KGroupKMerTransformer.kmer_transform_seq
      (KGroupKMerTransformer.mk 1 false true None) "AACGT" 1
      (KGroupKMerTransformer.create_kgroup_kmer_permutations 1)
    = Ok [((0, 0, 1, 0), Qc_of_Z 0); ((0, 0, 0, 1), Qc_of_Z 1);
          ((0, 1, 0, 0), Qc_of_Z 1); ((1, 0, 0, 0), Qc_of_Z 2)].
Proof.
  split_and!; [vm_compute; reflexivity|..];
    apply (bool_decide_unpack _); vm_compute; reflexivity.
Qed.

(** C8. In normalized mode every counted window adds [1/L] to its key,
    [L] being the length of the whole sequence: for a sequence over A, C, G,
    T with [L >= k >= 1] the entry of a k-mer [w] is the number of counted
    windows equal to [w] times [1/L], and the values sum to [(L - k)/L]
    (rational arithmetic). *)
Theorem normalized_row_total_is_L_minus_k_over_L
    (se : KMerTransformer.t) (seq : string) (k : Z) :
  1 ≤ k → k ≤ len seq → 0 < len seq →
  Forall (λ c, c ∈ bases) (chars seq) →
  KMerTransformer.normalize se = true →
  ∃ v row, KMerTransformer.create_kmer_permutations k = Ok v
         ∧ KMerTransformer.kmer_transform_seq se seq k v = Ok row
         ∧ (∀ w, w ∈ v →
              lookup_key row w
              = Some (Qc_of_Z (Z.of_nat
                        (length (filter (λ i, slice seq i (i + k) = w)
                                   (range (len seq - k)))))
                      * (Qc_of_Z 1 / Qc_of_Z (len seq)))%Qc)
         ∧ total row = (Qc_of_Z (len seq - k) / Qc_of_Z (len seq))%Qc.
Proof.
  intros Hk HL Hpos Hseq Hnorm.
  destruct (exact_transform_run se seq k)
    as (v & row & Hv & _ & _ & Hrun & _ & Hl & Ht); [lia|lia|done|].
  exists v, row. split_and!; [done..| |].
  - intros w Hw. rewrite (Hl w Hw), Hnorm. unfold step, hits, window.
    f_equal. ring.
  - rewrite Ht, Hnorm, Z.max_r by lia. unfold step.
    rewrite Z2Qc_inj_1. unfold Qcdiv. ring.
Qed.

Lemma normalized_row_total_is_L_minus_k_over_L_witness :
  (1 ≤ 2 ∧ 2 ≤ len "AACGT" ∧ 0 < len "AACGT"
   ∧ Forall (λ c, c ∈ bases) (chars "AACGT")
   ∧ KMerTransformer.normalize (KMerTransformer.mk 2 true true None) = true)
  ∧ ∃ v row, KMerTransformer.create_kmer_permutations 2 = Ok v
         ∧ KMerTransformer.kmer_transform_seq
             (KMerTransformer.mk 2 true true None) "AACGT" 2 v = Ok row
         ∧ (∀ w, w ∈ v →
              lookup_key row w
              = Some (Qc_of_Z (Z.of_nat
                        (length (filter (λ i, slice "AACGT" i (i + 2) = w)
                                   (range (len "AACGT" - 2)))))
                      * (Qc_of_Z 1 / Qc_of_Z (len "AACGT")))%Qc)
         ∧ total row = (Qc_of_Z (len "AACGT" - 2) / Qc_of_Z (len "AACGT"))%Qc.
Proof.
  assert (1 ≤ 2) as H1 by lia.
  assert (2 ≤ len "AACGT") as H2 by (vm_compute; discriminate).
  assert (0 < len "AACGT") as H3 by (vm_compute; reflexivity).
  assert (Forall (λ c, c ∈ bases) (chars "AACGT")) as H4
    by (apply (bool_decide_unpack _); vm_compute; reflexivity).
  split; [by split_and!|].
  exact (normalized_row_total_is_L_minus_k_over_L
           (KMerTransformer.mk 2 true true None) "AACGT" 2 H1 H2 H3 H4 eq_refl).
Defined.

(** * Characters outside the alphabet *)

(** C6. In exact mode, when a counted window (offset [i] with
    [0 <= i < L - k]) holds a character outside A, C, G, T, the
    per-sequence transform raises [KeyError], whatever the normalize flag:
    the window is no key of the vocabulary, and no row is produced. *)
Theorem exact_mode_foreign_character_raises_keyerror
    (se : KMerTransformer.t) (seq : string) (k i : Z) :
  1 ≤ k → 0 ≤ i < len seq - k →
  ¬ Forall (λ c, c ∈ bases) (chars (slice seq i (i + k))) →
  ∃ v, KMerTransformer.create_kmer_permutations k = Ok v
     ∧ (slice seq i (i + k) ∉ v)
     ∧ KMerTransformer.kmer_transform_seq se seq k v = Raise KeyError.
Proof.
  intros Hk Hi Hforeign.
  destruct (create_kmer_permutations_spec k) as (v & Hv & Hmem & _); [lia|].
  assert (slice seq i (i + k) ∉ v) as Hmiss.
  { intros [_ Hb]%Hmem. done. }
  exists v. split_and!; [done..|].
  rewrite exact_transform_loop.
  apply (counting_run_keyerror (window seq k) _ _ _ _ i); [lia|done..].
Qed.

Lemma exact_mode_foreign_character_raises_keyerror_witness :
  (1 ≤ 2 ∧ (0 ≤ 1 < len "AANAA" - 2)
   ∧ ¬ Forall (λ c, c ∈ bases) (chars (slice "AANAA" 1 (1 + 2))))
  ∧ ∃ v, KMerTransformer.create_kmer_permutations 2 = Ok v
     ∧ (slice "AANAA" 1 (1 + 2) ∉ v)
     ∧ KMerTransformer.kmer_transform_seq
         (KMerTransformer.mk 2 false true None) "AANAA" 2 v = Raise KeyError.
Proof.
  assert (1 ≤ 2) as H1 by lia.
  assert (0 ≤ 1 < len "AANAA" - 2) as H2 by (vm_compute; split; [discriminate|reflexivity]).
  assert (¬ Forall (λ c, c ∈ bases) (chars (slice "AANAA" 1 (1 + 2)))) as H3
    by (apply (bool_decide_unpack _); vm_compute; reflexivity).
  split; [by split_and!|].
  exact (exact_mode_foreign_character_raises_keyerror
           (KMerTransformer.mk 2 false true None) "AANAA" 2 1 H1 H2 H3).
Defined.

(** C4, as the code has it.  In grouped mode a character outside A, C, G, T
    increments none of the four counters of its window, so the counters of
    that window sum to less than [k]; such a tuple is no key of the
    vocabulary, and the per-sequence transform raises [KeyError], whatever
    the normalize flag, exactly as in exact mode. *)
Theorem grouped_mode_foreign_character_raises_keyerror
    (sg : KGroupKMerTransformer.t) (seq : string) (k i : Z) :
  1 ≤ k → 0 ≤ i < len seq - k →
  ¬ Forall (λ c, c ∈ bases) (chars (slice seq i (i + k))) →
  let subseq := slice seq i (i + k) in
  (0 ≤ str_count subseq "A" + str_count subseq "C"
       + str_count subseq "G" + str_count subseq "T" < k)
  ∧ (KGroupKMerTransformer.window_key subseq
       ∉ KGroupKMerTransformer.create_kgroup_kmer_permutations k)
  ∧ KGroupKMerTransformer.kmer_transform_seq sg seq k
      (KGroupKMerTransformer.create_kgroup_kmer_permutations k)
    = Raise KeyError.
Proof.
  intros Hk Hi Hforeign subseq.
  assert (len subseq = k) as Hlen by (apply len_slice; lia).
  pose proof (window_key_coverage_lt subseq Hforeign) as Hcov.
  pose proof (window_key_not_in_vocabulary subseq Hforeign) as Hmiss.
  rewrite Hlen in Hcov, Hmiss.
  split_and!; [lia|lia|done|].
  rewrite grouped_transform_loop.
  apply (counting_run_keyerror
           (λ i, KGroupKMerTransformer.window_key (window seq k i)) _ _ _ _ i);
    [lia|done..].
Qed.

Lemma grouped_mode_foreign_character_raises_keyerror_witness :
  (1 ≤ 2 ∧ (0 ≤ 0 < len "ANAA" - 2)
   ∧ ¬ Forall (λ c, c ∈ bases) (chars (slice "ANAA" 0 (0 + 2))))
  ∧ ((0 ≤ str_count (slice "ANAA" 0 (0 + 2)) "A"
          + str_count (slice "ANAA" 0 (0 + 2)) "C"
          + str_count (slice "ANAA" 0 (0 + 2)) "G"
          + str_count (slice "ANAA" 0 (0 + 2)) "T" < 2)
     ∧ (KGroupKMerTransformer.window_key (slice "ANAA" 0 (0 + 2))
          ∉ KGroupKMerTransformer.create_kgroup_kmer_permutations 2)
     ∧ KGroupKMerTransformer.kmer_transform_seq
         (KGroupKMerTransformer.mk 2 false true None) "ANAA" 2
         (KGroupKMerTransformer.create_kgroup_kmer_permutations 2)
       = Raise KeyError).
Proof.
  assert (1 ≤ 2) as H1 by lia.
  assert (0 ≤ 0 < len "ANAA" - 2) as H2
    by (vm_compute; split; [discriminate|reflexivity]).
  assert (¬ Forall (λ c, c ∈ bases) (chars (slice "ANAA" 0 (0 + 2)))) as H3
    by (apply (bool_decide_unpack _); vm_compute; reflexivity).
  split; [by split_and!|].
  exact (grouped_mode_foreign_character_raises_keyerror
           (KGroupKMerTransformer.mk 2 false true None) "ANAA" 2 0 H1 H2 H3).
Defined.

(** C4 as stated fails: with [k = 2] the sequence ANAA has the foreign
    character N in its counted window at offset 0, and the grouped
    transform produces no row. *)
Lemma grouped_mode_foreign_character_counterexample :
  ((0 ≤ 0 < len "ANAA" - 2)
   ∧ ¬ Forall (λ c, c ∈ bases) (chars (slice "ANAA" 0 (0 + 2))))
  ∧ ¬ ∃ row, KGroupKMerTransformer.kmer_transform_seq
               (KGroupKMerTransformer.mk 2 false true None) "ANAA" 2
               (KGroupKMerTransformer.create_kgroup_kmer_permutations 2)
             = Ok row.
Proof.
  split.
  - split; [vm_compute; split; [discriminate|reflexivity]|].
    apply (bool_decide_unpack _); vm_compute; reflexivity.
  - assert (KGroupKMerTransformer.kmer_transform_seq
              (KGroupKMerTransformer.mk 2 false true None) "ANAA" 2
              (KGroupKMerTransformer.create_kgroup_kmer_permutations 2)
            = Raise KeyError) as ->
      by (apply (bool_decide_unpack _); vm_compute; reflexivity).
    by intros [row ?].
Qed.

(** * Construction and fit with a non-positive [k] *)

(** C9, as the code has it.  Nothing validates [k].  Construction succeeds
    for every integer [k].  For a negative [k] the exact-mode [fit] fails
    with the [ValueError] of the permutation generator, and for [k = 0] it
    succeeds with the one-word vocabulary of the empty string.  The
    grouped-mode [fit] succeeds for every non-positive [k], with the
    vocabulary [(0, 0, 0, 0)] for [k = 0] and the empty one below. *)
Theorem nonpositive_k_is_not_validated (k : Z) (normalize verbose : bool) :
  k ≤ 0 →
  (∃ se, KMerTransformer.init k normalize verbose = Ok se
       ∧ KMerTransformer.fit se
         = if decide (k = 0)
           then Ok (KMerTransformer.mk k normalize verbose (Some [EmptyString]))
           else Raise ValueError)
  ∧ (∃ sg, KGroupKMerTransformer.init k normalize verbose = Ok sg
       ∧ KGroupKMerTransformer.fit sg
         = Ok (KGroupKMerTransformer.mk k normalize verbose
                 (Some (if decide (k = 0) then [(0, 0, 0, 0)] else [])))).
Proof.
  intros Hk. split.
  - eexists. split; [done|]. unfold KMerTransformer.fit. simpl.
    case_decide as H0.
    + subst k. done.
    + unfold KMerTransformer.create_kmer_permutations, permutations.
      by rewrite decide_True by lia.
  - eexists. split; [done|]. unfold KGroupKMerTransformer.fit. simpl.
    do 3 f_equal. case_decide as H0.
    + subst k. done.
    + unfold KGroupKMerTransformer.create_kgroup_kmer_permutations, range.
      by rewrite seqZ_nil by lia.
Qed.

Lemma nonpositive_k_is_not_validated_witness :
  -1 ≤ 0
  ∧ (∃ se, KMerTransformer.init (-1) false true = Ok se
       ∧ KMerTransformer.fit se
         = if decide (-1 = 0)
           then Ok (KMerTransformer.mk (-1) false true (Some [EmptyString]))
           else Raise ValueError)
  ∧ (∃ sg, KGroupKMerTransformer.init (-1) false true = Ok sg
       ∧ KGroupKMerTransformer.fit sg
         = Ok (KGroupKMerTransformer.mk (-1) false true
                 (Some (if decide (-1 = 0) then [(0, 0, 0, 0)] else [])))).
Proof.
  assert (-1 ≤ 0) as H by lia.
  split; [exact H|].
  exact (nonpositive_k_is_not_validated (-1) false true H).
Defined.

(** C9 as stated fails at [k = 0]: construction and [fit] both succeed. *)
Lemma nonpositive_k_counterexample :
  0 ≤ 0
  ∧ KMerTransformer.init 0 false true
    = Ok (KMerTransformer.mk 0 false true None)
  ∧ KMerTransformer.fit (KMerTransformer.mk 0 false true None)
    = Ok (KMerTransformer.mk 0 false true (Some [EmptyString])).
Proof. split_and!; [lia|reflexivity|vm_compute; reflexivity]. Qed.

(** * Grouped counts as sums of exact counts *)

Section Refinement.

Lemma has_composition_window_key a c g t w :
  has_composition a c g t w ↔ KGroupKMerTransformer.window_key w = (a, c, t, g).
Proof.
  unfold has_composition, KGroupKMerTransformer.window_key,
    KGroupKMerTransformer.make_key_string.
  split; [by intros (-> & -> & -> & ->)|by intros [= <- <- <- <-]].
Qed.

Lemma sum_list_with_zero {A} (l : list A) : sum_list_with (λ _, 0%nat) l = 0%nat.
Proof. induction l; simpl; lia. Qed.

Lemma sum_list_with_add {A} (f g : A → nat) (l : list A) :
  sum_list_with (λ x, f x + g x)%nat l
  = (sum_list_with f l + sum_list_with g l)%nat.
Proof. induction l; simpl; lia. Qed.

Lemma sum_list_with_indicator `{EqDecision A} (x : A) (l : list A) :
  NoDup l →
  sum_list_with (λ y, if decide (x = y) then 1 else 0)%nat l
  = if decide (x ∈ l) then 1%nat else 0%nat.
Proof.
  induction 1 as [|y l Hy Hnd IH].
  - destruct (decide (x ∈ [])) as [?%elem_of_nil|]; done.
  - change (sum_list_with ?f (y :: l)) with (f y + sum_list_with f l)%nat.
    rewrite IH. destruct (decide (x = y)) as [<-|Hne].
    + rewrite decide_False by done. by rewrite decide_True by left.
    + destruct (decide (x ∈ l)).
      * by rewrite decide_True by (by right).
      * rewrite decide_False; [done|]. by intros [?|?]%elem_of_cons.
Qed.

Lemma sum_list_with_ext {A} (f g : A → nat) (l : list A) :
  (∀ x, f x = g x) → sum_list_with f l = sum_list_with g l.
Proof. intros Hfg. induction l; simpl; [done|]. by rewrite Hfg, IHl. Qed.

(** Summing, over the words of a vocabulary that satisfy [P], the number of
    windows equal to the word counts the windows that satisfy [P]. *)
Lemma sum_hits_filter (P : string → Prop) `{∀ w, Decision (P w)}
    (win : Z → string) (v : list string) (ixs : list Z) :
  NoDup v → (∀ i, i ∈ ixs → win i ∈ v) →
  sum_list_with (λ w, hits win w ixs) (filter P v)
  = length (filter (λ i, P (win i)) ixs).
Proof.
  intros Hnd. induction ixs as [|i ixs IH]; intros Hin.
  - apply sum_list_with_zero.
  - unfold hits in *.
    rewrite (sum_list_with_ext _
               (λ w, (if decide (win i = w) then 1 else 0)
                     + length (filter (λ j, win j = w) ixs))%nat).
    + rewrite sum_list_with_add, IH by (intros j Hj; apply Hin; by right).
      rewrite sum_list_with_indicator by (by apply NoDup_filter).
      rewrite filter_cons.
      assert (win i ∈ v) as Hi by (apply Hin; left).
      destruct (decide (P (win i))) as [HP|HP].
      * rewrite decide_True; [done|]. by apply list_elem_of_filter.
      * rewrite decide_False; [done|]. by intros [? _]%list_elem_of_filter.
    + intros w. rewrite filter_cons. by case_decide.
Qed.

Lemma sumQc_of_nat {A} (h : A → nat) (l : list A) :
  sumQc ((λ x, Qc_of_Z (Z.of_nat (h x))) <$> l)
  = Qc_of_Z (Z.of_nat (sum_list_with h l)).
Proof.
  induction l as [|x l IH].
  - change (sumQc [] = Qc_of_Z 0). by rewrite Z2Qc_inj_0.
  - change (Qc_of_Z (Z.of_nat (h x))
            + sumQc ((λ x, Qc_of_Z (Z.of_nat (h x))) <$> l)
            = Qc_of_Z (Z.of_nat (h x + sum_list_with h l)))%Qc.
    by rewrite IH, Nat2Z.inj_add, Z2Qc_inj_add.
Qed.

End Refinement.

(** C10. For [k >= 1] and a sequence over A, C, G, T, in raw mode, the
    grouped row is the composition image of the exact row: the entry of the
    key [(a, c, t, g)] is the sum of the exact-mode entries of all strings of
    length [k] over the alphabet that contain exactly [a] A's, [c] C's,
    [g] G's and [t] T's. *)
Theorem grouped_row_is_composition_image_of_exact_row
    (se : KMerTransformer.t) (sg : KGroupKMerTransformer.t)
    (seq : string) (k : Z) :
  1 ≤ k →
  Forall (λ c, c ∈ bases) (chars seq) →
  KMerTransformer.normalize se = false →
  KGroupKMerTransformer.normalize sg = false →
  ∃ v exact_row grouped_row,
    KMerTransformer.create_kmer_permutations k = Ok v
    ∧ (∀ w, w ∈ v ↔ is_kmer k w) ∧ NoDup v
    ∧ KMerTransformer.kmer_transform_seq se seq k v = Ok exact_row
    ∧ KGroupKMerTransformer.kmer_transform_seq sg seq k
        (KGroupKMerTransformer.create_kgroup_kmer_permutations k)
      = Ok grouped_row
    ∧ ∀ a c t g,
        (a, c, t, g) ∈ KGroupKMerTransformer.create_kgroup_kmer_permutations k →
        lookup_key grouped_row (a, c, t, g)
        = Some (sumQc ((λ w, default 0%Qc (lookup_key exact_row w))
                         <$> filter (has_composition a c g t) v)).
Proof.
  intros Hk Hseq Hraw_e Hraw_g.
  destruct (exact_transform_run se seq k)
    as (v & re & Hv & Hnd & Hmem & Hrun_e & _ & Hl_e & _); [lia|lia|done|].
  destruct (grouped_transform_run sg seq k)
    as (rg & Hrun_g & _ & Hl_g & _); [lia|lia|done|].
  exists v, re, rg. split_and!; [done..|].
  intros a c t g Hkey. rewrite (Hl_g _ Hkey), Hraw_g. f_equal.
  rewrite (list_fmap_ext _
             (λ w, Qc_of_Z (Z.of_nat (hits (window seq k) w (range (len seq - k)))))
             (filter (has_composition a c g t) v)).
  - rewrite sumQc_of_nat, sum_hits_filter; [|done|].
    + unfold step, hits. rewrite Qcmult_1_l. do 3 f_equal.
      apply list_filter_iff. intros i. symmetry.
      apply has_composition_window_key.
    + intros i Hi%elem_of_range. apply Hmem. apply window_is_kmer; [lia|done..].
  - intros j w Hw. apply list_elem_of_lookup_2, list_elem_of_filter in Hw as [_ Hw].
    rewrite (Hl_e w Hw), Hraw_e. unfold step. simpl. by rewrite Qcmult_1_l.
Qed.

Lemma grouped_row_is_composition_image_of_exact_row_witness :
  (1 ≤ 2
   ∧ Forall (λ c, c ∈ bases) (chars "ACGT")
   ∧ KMerTransformer.normalize (KMerTransformer.mk 2 false true None) = false
   ∧ KGroupKMerTransformer.normalize (KGroupKMerTransformer.mk 2 false true None)
     = false)
  ∧ ∃ v exact_row grouped_row,
    KMerTransformer.create_kmer_permutations 2 = Ok v
    ∧ (∀ w, w ∈ v ↔ is_kmer 2 w) ∧ NoDup v
    ∧ KMerTransformer.kmer_transform_seq
        (KMerTransformer.mk 2 false true None) "ACGT" 2 v = Ok exact_row
    ∧ KGroupKMerTransformer.kmer_transform_seq
        (KGroupKMerTransformer.mk 2 false true None) "ACGT" 2
        (KGroupKMerTransformer.create_kgroup_kmer_permutations 2)
      = Ok grouped_row
    ∧ ∀ a c t g,
        (a, c, t, g) ∈ KGroupKMerTransformer.create_kgroup_kmer_permutations 2 →
        lookup_key grouped_row (a, c, t, g)
        = Some (sumQc ((λ w, default 0%Qc (lookup_key exact_row w))
                         <$> filter (has_composition a c g t) v)).
Proof.
  assert (1 ≤ 2) as H1 by lia.
  assert (Forall (λ c, c ∈ bases) (chars "ACGT")) as H2
    by (apply (bool_decide_unpack _); vm_compute; reflexivity).
  split; [by split_and!|].
  exact (grouped_row_is_composition_image_of_exact_row
           (KMerTransformer.mk 2 false true None)
           (KGroupKMerTransformer.mk 2 false true None)
           "ACGT" 2 H1 H2 eq_refl eq_refl).
Defined.

(** * The column pruner *)

Section Pruner.
Context {L : Type} `{EqDecision L}.
Implicit Types (X T : KGroupColumnPruner.frame L) (l : L) (cells : list Qc).

Lemma any_positive_true cells :
  KGroupColumnPruner.any_positive cells = true ↔ ∃ v, v ∈ cells ∧ (0 < v)%Qc.
Proof.
  unfold KGroupColumnPruner.any_positive. rewrite existsb_exists. split.
  - intros (v & Hin%list_elem_of_In & Hv%bool_decide_eq_true). eauto.
  - intros (v & Hin & Hv). exists v. split; [by apply list_elem_of_In|].
    by apply bool_decide_eq_true.
Qed.

Lemma filter_label_absent X l :
  l ∉ KGroupColumnPruner.columns X → filter (λ col, col.1 = l) X = [].
Proof.
  unfold KGroupColumnPruner.columns.
  induction X as [|[l' cells'] X IH]; [done|].
  rewrite fmap_cons, not_elem_of_cons. intros [Hne Hl].
  rewrite filter_cons_False by (intros ?; simplify_eq/=). by apply IH.
Qed.

(** In a frame whose labels are distinct, a label selects one column. *)
Lemma filter_label_unique X l cells :
  NoDup (KGroupColumnPruner.columns X) → (l, cells) ∈ X →
  filter (λ col, col.1 = l) X = [(l, cells)].
Proof.
  unfold KGroupColumnPruner.columns.
  induction X as [|[l' cells'] X IH]; intros Hnd Hin.
  - by apply elem_of_nil in Hin.
  - rewrite fmap_cons in Hnd. apply NoDup_cons in Hnd as [Hl' Hnd].
    apply elem_of_cons in Hin as [[= -> ->]|Hin].
    + rewrite filter_cons_True by done. f_equal.
      by apply filter_label_absent.
    + rewrite filter_cons_False; [by apply IH|].
      simpl. intros ->. apply Hl'.
      apply list_elem_of_fmap. by exists (l, cells).
Qed.

Lemma sublist_fmap_sublist {A B} (f : A → B) (l1 l2 : list A) :
  l1 `sublist_of` l2 → f <$> l1 `sublist_of` f <$> l2.
Proof. induction 1; simpl; by constructor. Qed.

(** Selecting the labels of columns of [X] gives those columns back. *)
Lemma getitem_columns_own X (Y : KGroupColumnPruner.frame L) :
  NoDup (KGroupColumnPruner.columns X) → (∀ col, col ∈ Y → col ∈ X) →
  KGroupColumnPruner.getitem_columns X (KGroupColumnPruner.columns Y) = Ok Y.
Proof.
  intros Hnd. induction Y as [|[l cells] Y IH]; intros Hsub; [done|].
  unfold KGroupColumnPruner.columns. rewrite fmap_cons. simpl.
  rewrite (filter_label_unique X l cells) by (done || apply Hsub; left).
  fold (KGroupColumnPruner.columns Y). rewrite IH; [done|].
  intros col Hcol. apply Hsub. by right.
Qed.

(** Selecting labels that [X] carries gives one column of [X] per label, in
    the order of the labels. *)
Lemma getitem_columns_present X (labels : list L) :
  NoDup (KGroupColumnPruner.columns X) →
  (∀ l, l ∈ labels → l ∈ KGroupColumnPruner.columns X) →
  ∃ X', KGroupColumnPruner.getitem_columns X labels = Ok X'
      ∧ KGroupColumnPruner.columns X' = labels
      ∧ ∀ col, col ∈ X' → col ∈ X.
Proof.
  intros Hnd. induction labels as [|l labels IH]; intros Hsub.
  - exists []. split_and!; [done..|]. by intros col ?%elem_of_nil.
  - destruct IH as (X' & Hget & Hcols & Hin).
    { intros l' Hl'. apply Hsub. by right. }
    assert (l ∈ KGroupColumnPruner.columns X) as Hl by (apply Hsub; left).
    apply list_elem_of_fmap in Hl as ([l' cells] & -> & Hcol). simpl in *.
    exists ((l', cells) :: X'). split_and!.
    + simpl. rewrite (filter_label_unique X l' cells), Hget by done. done.
    + unfold KGroupColumnPruner.columns in *. by rewrite fmap_cons, Hcols.
    + intros col [->|Hc]%elem_of_cons; auto.
Qed.

(** C5. After [fit] on a reference table [T] (a feature table: its column
    labels are distinct), the stored keep-set is the list of the labels of
    the columns of [T] that hold a strictly positive value in some row, in
    the column order of [T].  [transform] of [T], and of any table with
    distinct labels that carries the kept labels, returns exactly those
    columns: no more columns than [T] has, and each retained column holds a
    non-zero value in [T]. *)
Theorem pruner_keeps_exactly_the_positive_columns
    (self : KGroupColumnPruner.t L) (T : KGroupColumnPruner.frame L) :
  NoDup (KGroupColumnPruner.columns T) →
  ∃ keep T',
    KGroupColumnPruner.columns_to_keep (KGroupColumnPruner.fit self T) = Some keep
    ∧ keep `sublist_of` KGroupColumnPruner.columns T
    ∧ (∀ l, l ∈ keep ↔ ∃ cells v, (l, cells) ∈ T ∧ v ∈ cells ∧ (0 < v)%Qc)
    ∧ KGroupColumnPruner.transform (KGroupColumnPruner.fit self T) T = Ok T'
    ∧ KGroupColumnPruner.columns T' = keep
    ∧ (length (KGroupColumnPruner.columns T')
       ≤ length (KGroupColumnPruner.columns T))%nat
    ∧ T' `sublist_of` T
    ∧ (∀ l cells, (l, cells) ∈ T' → ∃ v, v ∈ cells ∧ v ≠ 0%Qc)
    ∧ (∀ X, NoDup (KGroupColumnPruner.columns X) →
            (∀ l, l ∈ keep → l ∈ KGroupColumnPruner.columns X) →
            ∃ X', KGroupColumnPruner.transform (KGroupColumnPruner.fit self T) X
                  = Ok X'
                ∧ KGroupColumnPruner.columns X' = keep
                ∧ (length (KGroupColumnPruner.columns X')
                   ≤ length (KGroupColumnPruner.columns T))%nat
                ∧ ∀ col, col ∈ X' → col ∈ X).
Proof.
  intros Hnd.
  set (T' := KGroupColumnPruner.loc_any_positive T).
  assert (T' `sublist_of` T) as Hsub by apply sublist_filter.
  assert (KGroupColumnPruner.columns T' `sublist_of` KGroupColumnPruner.columns T)
    as Hsubc by (by apply sublist_fmap_sublist).
  assert (∀ l cells, (l, cells) ∈ T' ↔
            (l, cells) ∈ T ∧ ∃ v, v ∈ cells ∧ (0 < v)%Qc) as Hmem.
  { intros l cells. unfold T', KGroupColumnPruner.loc_any_positive.
    rewrite list_elem_of_filter. simpl. rewrite any_positive_true. tauto. }
  exists (KGroupColumnPruner.columns T'), T'. split_and!.
  - done.
  - done.
  - intros l. unfold KGroupColumnPruner.columns at 1.
    rewrite list_elem_of_fmap. split.
    + intros ([l' cells] & -> & Hcol). apply Hmem in Hcol as [? (v & ? & ?)].
      by exists cells, v.
    + intros (cells & v & Hin & Hv & Hpos). exists (l, cells).
      split; [done|]. apply Hmem. eauto.
  - unfold KGroupColumnPruner.transform. simpl. apply getitem_columns_own; [done|].
    intros [l cells] Hcol. by apply Hmem in Hcol as [? _].
  - done.
  - by apply sublist_length.
  - done.
  - intros l cells (_ & v & Hv & Hpos)%Hmem. exists v. split; [done|].
    intros ->. by apply (irreflexivity Qclt 0%Qc).
  - intros X HX Hcarry. unfold KGroupColumnPruner.transform. simpl.
    destruct (getitem_columns_present X (KGroupColumnPruner.columns T') HX Hcarry)
      as (X' & Hget & Hcols & Hin).
    exists X'. split_and!; [done..| |done].
    rewrite Hcols. by apply sublist_length.
Qed.

End Pruner.

Lemma pruner_keeps_exactly_the_positive_columns_witness :
  NoDup (KGroupColumnPruner.columns example_table)
  ∧ ∃ keep T',
    KGroupColumnPruner.columns_to_keep
      (KGroupColumnPruner.fit (KGroupColumnPruner.init true) example_table)
    = Some keep
    ∧ keep `sublist_of` KGroupColumnPruner.columns example_table
    ∧ (∀ l, l ∈ keep
         ↔ ∃ cells v, (l, cells) ∈ example_table ∧ v ∈ cells ∧ (0 < v)%Qc)
    ∧ KGroupColumnPruner.transform
        (KGroupColumnPruner.fit (KGroupColumnPruner.init true) example_table)
        example_table
      = Ok T'
    ∧ KGroupColumnPruner.columns T' = keep
    ∧ (length (KGroupColumnPruner.columns T')
       ≤ length (KGroupColumnPruner.columns example_table))%nat
    ∧ T' `sublist_of` example_table
    ∧ (∀ l cells, (l, cells) ∈ T' → ∃ v, v ∈ cells ∧ v ≠ 0%Qc)
    ∧ (∀ X, NoDup (KGroupColumnPruner.columns X) →
            (∀ l, l ∈ keep → l ∈ KGroupColumnPruner.columns X) →
            ∃ X', KGroupColumnPruner.transform
                    (KGroupColumnPruner.fit (KGroupColumnPruner.init true)
                       example_table) X
                  = Ok X'
                ∧ KGroupColumnPruner.columns X' = keep
                ∧ (length (KGroupColumnPruner.columns X')
                   ≤ length (KGroupColumnPruner.columns example_table))%nat
                ∧ ∀ col, col ∈ X' → col ∈ X).
Proof.
  assert (NoDup (KGroupColumnPruner.columns example_table)) as Hnd
    by (apply (bool_decide_unpack _); vm_compute; reflexivity).
  split; [exact Hnd|].
  exact (pruner_keeps_exactly_the_positive_columns
           (KGroupColumnPruner.init true) example_table Hnd).
Defined.

(** Scenario: fitted on [example_table], the pruner drops TT and retains
    AA. *)
Example pruner_drops_all_zero_column :
  KGroupColumnPruner.fit_transform (KGroupColumnPruner.init true) example_table
  = Ok [("AA", [Qc_of_Z 0; Qc_of_Z 3])].
Proof. apply (bool_decide_unpack _). vm_compute. reflexivity. Qed.

(** * Further properties of the per-sequence transforms *)

Section LoopInvariants.
Context {K : Type} `{EqDecision K}.
Implicit Types (d : dict K) (ks : list K) (ixs : list Z) (x : K) (q : Qc).

Lemma NoDup_keys_setitem d x v : NoDup (keys d) → NoDup (keys (setitem d x v)).
Proof.
  intros Hnd. destruct (decide (x ∈ keys d)) as [Hx|Hx].
  - by rewrite keys_setitem_present.
  - rewrite keys_setitem_absent by done. apply NoDup_app. split_and!; [done| |].
    + intros y Hy ->%list_elem_of_singleton. done.
    + apply NoDup_singleton.
Qed.

Lemma NoDup_keys_fromkeys ks v : NoDup (keys (fromkeys ks v)).
Proof.
  unfold fromkeys. generalize (NoDup_nil_2 (A := K)).
  change (@nil K) with (keys (@nil (K * Qc))).
  generalize (@nil (K * Qc)). induction ks as [|x ks IH]; intros d Hd; [done|].
  simpl. by apply IH, NoDup_keys_setitem.
Qed.

Lemma iadd_item_inv d x inc d' :
  iadd_item d x inc = Ok d' → x ∈ keys d ∧ keys d' = keys d.
Proof.
  unfold iadd_item, getitem. intros Hrun.
  destruct (lookup_key d x) as [old|] eqn:Hl; [|done].
  assert (x ∈ keys d) as Hx by (apply elem_of_keys; by eexists).
  split; [done|]. simpl in Hrun. destruct inc as [inc|e]; [|done].
  simpl in Hrun. injection Hrun as <-. by apply keys_setitem_present.
Qed.

(** A loop that ends normally found every key it looked for, and left the
    keys as they were. *)
Lemma counting_loop_inv (key_of : Z → K) inc ixs d d' :
  counting_loop key_of inc ixs d = Ok d' →
  keys d' = keys d ∧ ∀ i, i ∈ ixs → key_of i ∈ keys d.
Proof.
  revert d. induction ixs as [|i ixs IH]; intros d Hrun.
  - injection Hrun as <-. split; [done|]. by intros i ?%elem_of_nil.
  - unfold counting_loop in *. simpl in Hrun.
    destruct (iadd_item d (key_of i) inc) as [d1|e] eqn:Hstep; [|done].
    simpl in Hrun. apply iadd_item_inv in Hstep as [Hi Hk1].
    apply IH in Hrun as [Hk Hall]. split; [congruence|].
    intros j [->|Hj]%elem_of_cons; [done|]. rewrite <-Hk1. by apply Hall.
Qed.

(** Two loop bodies that agree on the indices visited give the same run. *)
Lemma for_each_ext {S} (f g : S → Z → result S) ixs (s : S) :
  (∀ s i, i ∈ ixs → f s i = g s i) → for_each ixs f s = for_each ixs g s.
Proof.
  revert s. induction ixs as [|i ixs IH]; intros s Hfg; [done|].
  simpl. rewrite Hfg by left. destruct (g s i); [|done]. simpl.
  apply IH. intros s' j Hj. apply Hfg. by right.
Qed.

(** Counting with increment [q] is counting with increment 1 and scaling
    every value by [q]. *)
Lemma counting_loop_scale (key_of : Z → K) q ixs d :
  counting_loop key_of (Ok q) ixs ((λ p, (p.1, (p.2 * q)%Qc)) <$> d)
  = match counting_loop key_of (Ok 1%Qc) ixs d with
    | Ok d' => Ok ((λ p, (p.1, (p.2 * q)%Qc)) <$> d')
    | Raise e => Raise e
    end.
Proof.
  set (sc := λ p : K * Qc, (p.1, (p.2 * q)%Qc)).
  assert (∀ d x, lookup_key (sc <$> d) x = (λ v, (v * q)%Qc) <$> lookup_key d x)
    as Hlook.
  { intros d' x. induction d' as [|[y w] d' IH]; [done|].
    rewrite fmap_cons. simpl. case_decide; [done|apply IH]. }
  assert (∀ d x v, setitem (sc <$> d) x (v * q)%Qc = sc <$> setitem d x v)
    as Hset.
  { intros d' x v. induction d' as [|[y w] d' IH]; [done|].
    rewrite fmap_cons. simpl. case_decide; [done|]. rewrite fmap_cons.
    by rewrite IH. }
  revert d. induction ixs as [|i ixs IH]; intros d; [done|].
  unfold counting_loop in *. simpl. unfold iadd_item, getitem.
  rewrite Hlook. destruct (lookup_key d (key_of i)) as [old|]; [|done].
  simpl. replace (old * q + q)%Qc with ((old + 1) * q)%Qc by ring.
  rewrite Hset. apply IH.
Qed.

Lemma scale_all_zero q d :
  Forall (λ w, w = 0%Qc) (values d) → (λ p, (p.1, (p.2 * q)%Qc)) <$> d = d.
Proof.
  unfold values. induction d as [|[y w] d IH]; [done|].
  rewrite !fmap_cons. simpl. intros Hd. inversion Hd as [|? ? -> Hd']; subst.
  rewrite IH by done. f_equal. f_equal. ring.
Qed.

End LoopInvariants.

Section RunOutcome.
Context {K : Type} `{EqDecision K}.

(** The whole outcome of a run over a fresh row, when [1/len(seq)] is
    defined whenever the loop body runs. *)
Lemma counting_run_outcome (key_of : Z → K) b seq n (ks : list K) :
  (0 < n → 0 < len seq) →
  match counting_loop key_of (increment b seq) (range n) (fromkeys ks 0%Qc) with
  | Ok row =>
      (∀ i, 0 ≤ i < n → key_of i ∈ ks)
      ∧ NoDup (keys row)
      ∧ (∀ x, x ∈ keys row ↔ x ∈ ks)
      ∧ (NoDup ks → keys row = ks)
      ∧ (∀ x, x ∈ ks →
           lookup_key row x
           = Some (step b seq * Qc_of_Z (Z.of_nat (hits key_of x (range n))))%Qc)
  | Raise e => e = KeyError ∧ ∃ i, 0 ≤ i < n ∧ key_of i ∉ ks
  end.
Proof.
  intros Hlen.
  destruct (decide (Forall (λ i, key_of i ∈ ks) (range n))) as [Hall|Hex].
  - rewrite Forall_forall in Hall.
    destruct (counting_run key_of b seq n ks Hlen)
      as (row & Hrun & Hk & Hmem & Hl & _).
    { intros i Hi. by apply Hall, elem_of_range. }
    rewrite Hrun. split_and!; [|..|done|done|done].
    + intros i Hi. by apply Hall, elem_of_range.
    + apply counting_loop_inv in Hrun as [-> _]. apply NoDup_keys_fromkeys.
  - apply not_Forall_Exists, Exists_exists in Hex; [|apply _].
    destruct Hex as (i & Hi%elem_of_range & Hmiss).
    rewrite (counting_run_keyerror key_of b seq n ks i) by done.
    split; [done|]. by exists i.
Qed.

End RunOutcome.

(** X1. For [k >= 0] the exact per-sequence transform has two outcomes
    only.  It returns a row exactly when every counted window is a key of
    the vocabulary it was given; the row then has the vocabulary's keys, in
    the vocabulary's order, and the entry of a key is the number of counted
    windows equal to it, times the increment (1, or [1/len(seq)] when
    normalizing).  Otherwise it raises [KeyError]; no other exception
    occurs. *)
Theorem exact_transform_outcome
    (se : KMerTransformer.t) (seq : string) (k : Z) (perms : list string) :
  0 ≤ k →
  match KMerTransformer.kmer_transform_seq se seq k perms with
  | Ok row =>
      (∀ i, 0 ≤ i < len seq - k → slice seq i (i + k) ∈ perms)
      ∧ NoDup (keys row)
      ∧ (∀ w, w ∈ keys row ↔ w ∈ perms)
      ∧ (NoDup perms → keys row = perms)
      ∧ (∀ w, w ∈ perms →
           lookup_key row w
           = Some ((if KMerTransformer.normalize se
                    then Qc_of_Z 1 / Qc_of_Z (len seq) else 1)
                   * Qc_of_Z (Z.of_nat
                       (length (filter (λ i, slice seq i (i + k) = w)
                                  (range (len seq - k))))))%Qc)
  | Raise e =>
      e = KeyError
      ∧ ∃ i, 0 ≤ i < len seq - k ∧ slice seq i (i + k) ∉ perms
  end.
Proof.
  intros Hk. rewrite exact_transform_loop.
  apply (counting_run_outcome (window seq k)). lia.
Qed.

Lemma exact_transform_outcome_witness :
  0 ≤ 2
  ∧ match KMerTransformer.kmer_transform_seq
            (KMerTransformer.mk 2 false true None) "ACXGT" 2 ["AC"; "GT"] with
    | Ok row =>
        (∀ i, 0 ≤ i < len "ACXGT" - 2 → slice "ACXGT" i (i + 2) ∈ ["AC"; "GT"])
        ∧ NoDup (keys row)
        ∧ (∀ w, w ∈ keys row ↔ w ∈ ["AC"; "GT"])
        ∧ (NoDup ["AC"; "GT"] → keys row = ["AC"; "GT"])
        ∧ (∀ w, w ∈ ["AC"; "GT"] →
             lookup_key row w
             = Some ((if KMerTransformer.normalize
                           (KMerTransformer.mk 2 false true None)
                      then Qc_of_Z 1 / Qc_of_Z (len "ACXGT") else 1)
                     * Qc_of_Z (Z.of_nat
                         (length (filter (λ i, slice "ACXGT" i (i + 2) = w)
                                    (range (len "ACXGT" - 2))))))%Qc)
    | Raise e =>
        e = KeyError
        ∧ ∃ i, 0 ≤ i < len "ACXGT" - 2 ∧ slice "ACXGT" i (i + 2) ∉ ["AC"; "GT"]
    end.
Proof.
  assert (0 ≤ 2) as H by lia.
  split; [exact H|].
  exact (exact_transform_outcome
           (KMerTransformer.mk 2 false true None) "ACXGT" 2 ["AC"; "GT"] H).
Defined.

(** X2. The same for the grouped per-sequence transform, for [k >= 0]: it
    returns a row exactly when the composition key of every counted window
    is a key of the vocabulary it was given, the entry of a key being the
    number of counted windows with that key, times the increment; otherwise
    it raises [KeyError], and nothing else. *)
Theorem grouped_transform_outcome
    (sg : KGroupKMerTransformer.t) (seq : string) (k : Z)
    (perms : list KGroupKMerTransformer.key) :
  0 ≤ k →
  match KGroupKMerTransformer.kmer_transform_seq sg seq k perms with
  | Ok row =>
      (∀ i, 0 ≤ i < len seq - k →
            KGroupKMerTransformer.window_key (slice seq i (i + k)) ∈ perms)
      ∧ NoDup (keys row)
      ∧ (∀ x, x ∈ keys row ↔ x ∈ perms)
      ∧ (NoDup perms → keys row = perms)
      ∧ (∀ x, x ∈ perms →
           lookup_key row x
           = Some ((if KGroupKMerTransformer.normalize sg
                    then Qc_of_Z 1 / Qc_of_Z (len seq) else 1)
                   * Qc_of_Z (Z.of_nat
                       (length
                          (filter
                             (λ i, KGroupKMerTransformer.window_key
                                     (slice seq i (i + k)) = x)
                             (range (len seq - k))))))%Qc)
  | Raise e =>
      e = KeyError
      ∧ ∃ i, 0 ≤ i < len seq - k
           ∧ KGroupKMerTransformer.window_key (slice seq i (i + k)) ∉ perms
  end.
Proof.
  intros Hk. rewrite grouped_transform_loop.
  apply (counting_run_outcome
           (λ i, KGroupKMerTransformer.window_key (window seq k i))). lia.
Qed.

Lemma grouped_transform_outcome_witness :
  0 ≤ 2
  ∧ match KGroupKMerTransformer.kmer_transform_seq
            (KGroupKMerTransformer.mk 2 true true None) "ACGT" 2
            [(1, 1, 0, 0); (0, 1, 0, 1)] with
    | Ok row =>
        (∀ i, 0 ≤ i < len "ACGT" - 2 →
              KGroupKMerTransformer.window_key (slice "ACGT" i (i + 2))
                ∈ [(1, 1, 0, 0); (0, 1, 0, 1)])
        ∧ NoDup (keys row)
        ∧ (∀ x, x ∈ keys row ↔ x ∈ [(1, 1, 0, 0); (0, 1, 0, 1)])
        ∧ (NoDup [(1, 1, 0, 0); (0, 1, 0, 1)]
           → keys row = [(1, 1, 0, 0); (0, 1, 0, 1)])
        ∧ (∀ x, x ∈ [(1, 1, 0, 0); (0, 1, 0, 1)] →
             lookup_key row x
             = Some ((if KGroupKMerTransformer.normalize
                           (KGroupKMerTransformer.mk 2 true true None)
                      then Qc_of_Z 1 / Qc_of_Z (len "ACGT") else 1)
                     * Qc_of_Z (Z.of_nat
                         (length
                            (filter
                               (λ i, KGroupKMerTransformer.window_key
                                       (slice "ACGT" i (i + 2)) = x)
                               (range (len "ACGT" - 2))))))%Qc)
    | Raise e =>
        e = KeyError
        ∧ ∃ i, 0 ≤ i < len "ACGT" - 2
             ∧ KGroupKMerTransformer.window_key (slice "ACGT" i (i + 2))
                 ∉ [(1, 1, 0, 0); (0, 1, 0, 1)]
    end.
Proof.
  assert (0 ≤ 2) as H by lia.
  split; [exact H|].
  exact (grouped_transform_outcome
           (KGroupKMerTransformer.mk 2 true true None) "ACGT" 2
           [(1, 1, 0, 0); (0, 1, 0, 1)] H).
Defined.

Section LastCharacter.
Implicit Types (s seq : string) (c : ascii) (k i : Z).

Lemma len_append_char s c : len (s +:+ String c EmptyString) = len s + 1.
Proof.
  rewrite !len_chars, chars_append, length_app. simpl. lia.
Qed.

(** A window that ends before the last character does not see it. *)
Lemma slice_append_char s c i k :
  0 ≤ i → 0 ≤ k → i + k ≤ len s →
  slice (s +:+ String c EmptyString) i (i + k) = slice s i (i + k).
Proof.
  intros Hi Hk Hlen. apply chars_inj.
  rewrite !chars_slice by (rewrite ?len_append_char; lia).
  rewrite chars_append. rewrite len_chars in Hlen.
  rewrite drop_app_le by lia. apply take_app_le.
  rewrite length_drop. lia.
Qed.

End LastCharacter.

(** X3. For [k >= 1] the last character of a sequence has no influence on
    the outcome of either per-sequence transform, whatever the character,
    the vocabulary and the normalize flag: no counted window reaches it. *)
Theorem last_character_is_never_read
    (se : KMerTransformer.t) (sg : KGroupKMerTransformer.t)
    (s : string) (c1 c2 : ascii) (k : Z)
    (perms : list string) (gperms : list KGroupKMerTransformer.key) :
  1 ≤ k →
  KMerTransformer.kmer_transform_seq se (s +:+ String c1 EmptyString) k perms
  = KMerTransformer.kmer_transform_seq se (s +:+ String c2 EmptyString) k perms
  ∧ KGroupKMerTransformer.kmer_transform_seq sg
      (s +:+ String c1 EmptyString) k gperms
    = KGroupKMerTransformer.kmer_transform_seq sg
        (s +:+ String c2 EmptyString) k gperms.
Proof.
  intros Hk.
  assert (∀ i, i ∈ range (len s + 1 - k) →
            window (s +:+ String c1 EmptyString) k i
            = window (s +:+ String c2 EmptyString) k i) as Hwin.
  { intros i Hi%elem_of_range. unfold window.
    rewrite !slice_append_char by lia. done. }
  split.
  - rewrite !exact_transform_loop. unfold counting_loop, increment.
    rewrite !len_append_char. apply for_each_ext.
    intros d i Hi. by rewrite (Hwin i Hi).
  - rewrite !grouped_transform_loop. unfold counting_loop, increment.
    rewrite !len_append_char. apply for_each_ext.
    intros d i Hi. by rewrite (Hwin i Hi).
Qed.

Lemma last_character_is_never_read_witness :
  1 ≤ 2
  ∧ (KMerTransformer.kmer_transform_seq (KMerTransformer.mk 2 false true None)
       ("ACG" +:+ String "T" EmptyString) 2 ["AC"; "CG"; "GT"]
     = KMerTransformer.kmer_transform_seq (KMerTransformer.mk 2 false true None)
         ("ACG" +:+ String "N" EmptyString) 2 ["AC"; "CG"; "GT"]
     ∧ KGroupKMerTransformer.kmer_transform_seq
         (KGroupKMerTransformer.mk 2 false true None)
         ("ACG" +:+ String "T" EmptyString) 2 [(1, 1, 0, 0)]
       = KGroupKMerTransformer.kmer_transform_seq
           (KGroupKMerTransformer.mk 2 false true None)
           ("ACG" +:+ String "N" EmptyString) 2 [(1, 1, 0, 0)]).
Proof.
  assert (1 ≤ 2) as H by lia.
  split; [exact H|].
  exact (last_character_is_never_read
           (KMerTransformer.mk 2 false true None)
           (KGroupKMerTransformer.mk 2 false true None)
           "ACG" "T" "N" 2 ["AC"; "CG"; "GT"] [(1, 1, 0, 0)] H).
Defined.

(** X4. Normalizing only rescales.  On a non-empty sequence, the outcome
    with [normalize=True] is the outcome with [normalize=False] with every
    value multiplied by [1/len(seq)]: the same keys in the same order, and
    the same exception if there is one.  This holds for both per-sequence
    transforms, any [k] and any vocabulary. *)
Theorem normalized_row_is_rescaled_raw_row
    (se_raw se_norm : KMerTransformer.t)
    (sg_raw sg_norm : KGroupKMerTransformer.t)
    (seq : string) (k : Z)
    (perms : list string) (gperms : list KGroupKMerTransformer.key) :
  0 < len seq →
  KMerTransformer.normalize se_raw = false →
  KMerTransformer.normalize se_norm = true →
  KGroupKMerTransformer.normalize sg_raw = false →
  KGroupKMerTransformer.normalize sg_norm = true →
  KMerTransformer.kmer_transform_seq se_norm seq k perms
  = match KMerTransformer.kmer_transform_seq se_raw seq k perms with
    | Ok row =>
        Ok ((λ p, (p.1, (p.2 * (Qc_of_Z 1 / Qc_of_Z (len seq)))%Qc)) <$> row)
    | Raise e => Raise e
    end
  ∧ KGroupKMerTransformer.kmer_transform_seq sg_norm seq k gperms
    = match KGroupKMerTransformer.kmer_transform_seq sg_raw seq k gperms with
      | Ok row =>
          Ok ((λ p, (p.1, (p.2 * (Qc_of_Z 1 / Qc_of_Z (len seq)))%Qc)) <$> row)
      | Raise e => Raise e
      end.
Proof.
  intros Hlen He_r He_n Hg_r Hg_n. split.
  - rewrite !exact_transform_loop, He_r, He_n, increment_ok by done.
    unfold increment.
    rewrite <-(scale_all_zero (Qc_of_Z 1 / Qc_of_Z (len seq))%Qc
                 (fromkeys perms 0%Qc)) at 1 by apply values_fromkeys.
    apply counting_loop_scale.
  - rewrite !grouped_transform_loop, Hg_r, Hg_n, increment_ok by done.
    unfold increment.
    rewrite <-(scale_all_zero (Qc_of_Z 1 / Qc_of_Z (len seq))%Qc
                 (fromkeys gperms 0%Qc)) at 1 by apply values_fromkeys.
    apply counting_loop_scale.
Qed.

Lemma normalized_row_is_rescaled_raw_row_witness :
  (0 < len "ACGT"
   ∧ KMerTransformer.normalize (KMerTransformer.mk 2 false true None) = false
   ∧ KMerTransformer.normalize (KMerTransformer.mk 2 true true None) = true
   ∧ KGroupKMerTransformer.normalize
       (KGroupKMerTransformer.mk 2 false true None) = false
   ∧ KGroupKMerTransformer.normalize
       (KGroupKMerTransformer.mk 2 true true None) = true)
  ∧ (KMerTransformer.kmer_transform_seq
       (KMerTransformer.mk 2 true true None) "ACGT" 2 ["AC"; "CG"]
     = match KMerTransformer.kmer_transform_seq
               (KMerTransformer.mk 2 false true None) "ACGT" 2 ["AC"; "CG"] with
       | Ok row =>
           Ok ((λ p, (p.1, (p.2 * (Qc_of_Z 1 / Qc_of_Z (len "ACGT")))%Qc))
                 <$> row)
       | Raise e => Raise e
       end
     ∧ KGroupKMerTransformer.kmer_transform_seq
         (KGroupKMerTransformer.mk 2 true true None) "ACGT" 2 [(1, 1, 0, 0)]
       = match KGroupKMerTransformer.kmer_transform_seq
                 (KGroupKMerTransformer.mk 2 false true None) "ACGT" 2
                 [(1, 1, 0, 0)] with
         | Ok row =>
             Ok ((λ p, (p.1, (p.2 * (Qc_of_Z 1 / Qc_of_Z (len "ACGT")))%Qc))
                   <$> row)
         | Raise e => Raise e
         end).
Proof.
  assert (0 < len "ACGT") as H by (vm_compute; reflexivity).
  split; [by split_and!|].
  exact (normalized_row_is_rescaled_raw_row
           (KMerTransformer.mk 2 false true None)
           (KMerTransformer.mk 2 true true None)
           (KGroupKMerTransformer.mk 2 false true None)
           (KGroupKMerTransformer.mk 2 true true None)
           "ACGT" 2 ["AC"; "CG"] [(1, 1, 0, 0)] H eq_refl eq_refl eq_refl eq_refl).
Defined.

Section ZeroK.

Lemma slice_empty_window seq i : 0 ≤ i ≤ len seq → slice seq i (i + 0) = EmptyString.
Proof.
  intros Hi. apply chars_inj. rewrite chars_slice by lia. done.
Qed.

Lemma dict_singleton {K} `{EqDecision K} (d : dict K) (x : K) (v : Qc) :
  keys d = [x] → lookup_key d x = Some v → d = [(x, v)].
Proof.
  destruct d as [|[y w] [|? ?]]; try done. simpl. intros [= ->].
  rewrite decide_True by done. by intros [= ->].
Qed.

Lemma hits_all {K} `{EqDecision K} (key_of : Z → K) (x : K) (ixs : list Z) :
  (∀ i, i ∈ ixs → key_of i = x) → hits key_of x ixs = length ixs.
Proof.
  unfold hits. induction ixs as [|i ixs IH]; intros Hall; [done|].
  rewrite filter_cons_True by (apply Hall; left). simpl.
  rewrite IH; [done|]. intros j Hj. apply Hall. by right.
Qed.

(** The single entry of a row for [k = 0]. *)
Lemma zero_k_value b seq :
  (step b seq * Qc_of_Z (Z.of_nat (length (range (len seq - 0)))))%Qc
  = if b then (if decide (len seq = 0) then 0%Qc else 1%Qc)
    else Qc_of_Z (len seq).
Proof.
  assert (0 ≤ len seq) as Hpos by (unfold len; lia).
  rewrite length_range, Z.sub_0_r by lia. unfold step. destruct b.
  - case_decide as H0.
    + rewrite H0, Z2Qc_inj_0. ring.
    + rewrite Z2Qc_inj_1. unfold Qcdiv. rewrite Qcmult_1_l.
      apply Qcmult_inv_l. rewrite <-Z2Qc_inj_0. by intros ?%Z2Qc_inj.
  - ring.
Qed.

End ZeroK.

(** X5. With [k = 0] every window is the empty string, and there are
    [len(seq)] of them.  In raw mode, against the vocabulary that [fit]
    computes for [k = 0], either transform returns, for every sequence
    whatever its characters, a one-entry row: the empty string (the key
    [(0, 0, 0, 0)] in grouped mode) with the length of the sequence. *)
Theorem zero_k_row_counts_the_length
    (se : KMerTransformer.t) (sg : KGroupKMerTransformer.t) (seq : string) :
  KMerTransformer.normalize se = false →
  KGroupKMerTransformer.normalize sg = false →
  KMerTransformer.create_kmer_permutations 0 = Ok [EmptyString]
  ∧ KMerTransformer.kmer_transform_seq se seq 0 [EmptyString]
    = Ok [(EmptyString, Qc_of_Z (len seq))]
  ∧ KGroupKMerTransformer.create_kgroup_kmer_permutations 0 = [(0, 0, 0, 0)]
  ∧ KGroupKMerTransformer.kmer_transform_seq sg seq 0 [(0, 0, 0, 0)]
    = Ok [((0, 0, 0, 0), Qc_of_Z (len seq))].
Proof.
  intros Hraw_e Hraw_g.
  assert (∀ i, 0 ≤ i < len seq - 0 → window seq 0 i = EmptyString) as Hwin.
  { intros i Hi. unfold window. apply slice_empty_window. lia. }
  split_and!.
  - vm_compute. reflexivity.
  - rewrite exact_transform_loop.
    destruct (counting_run (window seq 0) (KMerTransformer.normalize se) seq
                (len seq - 0) [EmptyString]) as (row & -> & Hk & _ & Hl & _).
    { lia. }
    { intros i Hi. rewrite Hwin by done. left. }
    f_equal. apply dict_singleton.
    + apply Hk, NoDup_singleton.
    + rewrite Hl by left. rewrite hits_all.
      * by rewrite zero_k_value, Hraw_e.
      * intros i Hi%elem_of_range. by apply Hwin.
  - vm_compute. reflexivity.
  - rewrite grouped_transform_loop.
    destruct (counting_run
                (λ i, KGroupKMerTransformer.window_key (window seq 0 i))
                (KGroupKMerTransformer.normalize sg) seq
                (len seq - 0) [(0, 0, 0, 0)]) as (row & -> & Hk & _ & Hl & _).
    { lia. }
    { intros i Hi. rewrite Hwin by done. left. }
    f_equal. apply dict_singleton.
    + apply Hk, NoDup_singleton.
    + rewrite Hl by left. rewrite hits_all.
      * by rewrite zero_k_value, Hraw_g.
      * intros i Hi%elem_of_range. by rewrite Hwin by (by apply Hi).
Qed.

Lemma zero_k_row_counts_the_length_witness :
  (KMerTransformer.normalize (KMerTransformer.mk 0 false true None) = false
   ∧ KGroupKMerTransformer.normalize (KGroupKMerTransformer.mk 0 false true None)
     = false)
  ∧ KMerTransformer.create_kmer_permutations 0 = Ok [EmptyString]
  ∧ KMerTransformer.kmer_transform_seq (KMerTransformer.mk 0 false true None)
      "ACNGT" 0 [EmptyString]
    = Ok [(EmptyString, Qc_of_Z (len "ACNGT"))]
  ∧ KGroupKMerTransformer.create_kgroup_kmer_permutations 0 = [(0, 0, 0, 0)]
  ∧ KGroupKMerTransformer.kmer_transform_seq
      (KGroupKMerTransformer.mk 0 false true None) "ACNGT" 0 [(0, 0, 0, 0)]
    = Ok [((0, 0, 0, 0), Qc_of_Z (len "ACNGT"))].
Proof.
  split; [by split|].
  exact (zero_k_row_counts_the_length
           (KMerTransformer.mk 0 false true None)
           (KGroupKMerTransformer.mk 0 false true None)
           "ACNGT" eq_refl eq_refl).
Defined.

(** * Further properties of the vocabularies *)

Section VocabularyOrder.

Lemma String_le_cons_same c w w' :
  String.le w w' → String.le (String c w) (String c w').
Proof.
  unfold String.le, String.leb. simpl.
  assert (Ascii.compare c c = Eq) as -> by apply N.compare_refl. done.
Qed.

Lemma String_le_cons_lt c c' w w' :
  Ascii.compare c c' = Lt → String.le (String c w) (String c' w').
Proof. unfold String.le, String.leb. simpl. by intros ->. Qed.

Lemma join_words_S n :
  join <$> words (S n) = c ← bases; String c <$> (join <$> words n).
Proof.
  rewrite words_S, fmap_bind_comm. apply list_bind_ext; [|done].
  intros c. rewrite <-!list_fmap_compose. done.
Qed.

(** The independent enumeration is in lexicographic order. *)
Lemma StronglySorted_join_words n : StronglySorted String.le (join <$> words n).
Proof.
  induction n as [|n IH].
  - repeat constructor.
  - rewrite join_words_S.
    apply (StronglySorted_bind (λ c c', Ascii.compare c c' = Lt)).
    + unfold bases. repeat constructor.
    + intros c _. apply (StronglySorted_fmap _ String.le); [|done].
      intros w w'. apply String_le_cons_same.
    + intros c c' y1 y2 Hlt (w1 & -> & _)%list_elem_of_fmap
        (w2 & -> & _)%list_elem_of_fmap.
      by apply String_le_cons_lt.
Qed.

(** The vocabulary in closed form. *)
Lemma create_kmer_permutations_words k :
  0 ≤ k →
  KMerTransformer.create_kmer_permutations k = Ok (join <$> words (Z.to_nat k)).
Proof.
  intros Hk.
  destruct (create_kmer_permutations_spec k Hk) as (v & -> & _ & _ & Hs & Hp).
  f_equal. apply (StronglySorted_unique String.le); [done| |done].
  apply StronglySorted_join_words.
Qed.

End VocabularyOrder.

(** X6. The exact vocabularies are built one letter at a time: for
    [k >= 0], the vocabulary for [k + 1] is the vocabulary for [k] prefixed
    with A, then with C, then with G, then with T, in that order (and the
    vocabulary for 0 is the empty string alone), so the position of a word
    is its rank as a base-4 numeral with digits A, C, G, T. *)
Theorem exact_vocabulary_grows_by_prefixing (k : Z) :
  0 ≤ k →
  ∃ v, KMerTransformer.create_kmer_permutations k = Ok v
     ∧ KMerTransformer.create_kmer_permutations (k + 1)
       = Ok ((String "A" <$> v) ++ (String "C" <$> v)
             ++ (String "G" <$> v) ++ (String "T" <$> v)).
Proof.
  intros Hk. exists (join <$> words (Z.to_nat k)). split.
  - by apply create_kmer_permutations_words.
  - rewrite create_kmer_permutations_words by lia.
    replace (Z.to_nat (k + 1)) with (S (Z.to_nat k)) by lia.
    rewrite join_words_S. unfold bases.
    rewrite !bind_cons. simpl. by rewrite !app_nil_r.
Qed.

Lemma exact_vocabulary_grows_by_prefixing_witness :
  0 ≤ 1
  ∧ ∃ v, KMerTransformer.create_kmer_permutations 1 = Ok v
     ∧ KMerTransformer.create_kmer_permutations (1 + 1)
       = Ok ((String "A" <$> v) ++ (String "C" <$> v)
             ++ (String "G" <$> v) ++ (String "T" <$> v)).
Proof.
  assert (0 ≤ 1) as H by lia.
  split; [exact H|]. exact (exact_vocabulary_grows_by_prefixing 1 H).
Defined.

Section Compositions.

(** A word with a given composition. *)
Lemma word_of_composition a c g t :
  0 ≤ a → 0 ≤ c → 0 ≤ g → 0 ≤ t →
  ∃ w, is_kmer (a + c + g + t) w
     ∧ KGroupKMerTransformer.window_key w
       = KGroupKMerTransformer.make_key_string a c t g.
Proof.
  intros Ha Hc Hg Ht.
  set (l := replicate (Z.to_nat a) "A"%char ++ replicate (Z.to_nat c) "C"%char
            ++ replicate (Z.to_nat g) "G"%char ++ replicate (Z.to_nat t) "T"%char).
  assert (∀ b, occ b l
            = ((if decide ("A"%char = b) then Z.to_nat a else 0)
               + ((if decide ("C"%char = b) then Z.to_nat c else 0)
                  + ((if decide ("G"%char = b) then Z.to_nat g else 0)
                     + (if decide ("T"%char = b) then Z.to_nat t else 0))))%nat)
    as Hocc.
  { intros b. unfold l. by rewrite !occ_app, !occ_replicate. }
  exists (join l). split; [split|].
  - rewrite len_chars, chars_join. unfold l.
    rewrite !length_app, !length_replicate. lia.
  - rewrite chars_join. unfold l, bases. rewrite !Forall_app.
    split_and!; apply Forall_forall; intros x ->%elem_of_replicate_inv;
      set_solver.
  - unfold KGroupKMerTransformer.window_key, str_count.
    rewrite chars_join. fold (occ "A" l) (occ "C" l) (occ "G" l) (occ "T" l).
    rewrite !Hocc. simpl.
    unfold KGroupKMerTransformer.make_key_string. repeat f_equal; lia.
Qed.

End Compositions.

(** X7. For [k >= 0] the grouped vocabulary is exactly the set of
    composition keys of the words of the exact vocabulary: the key of every
    k-mer is a grouped key, and every grouped key is the key of some
    k-mer. *)
Theorem grouped_vocabulary_is_image_of_exact_vocabulary (k : Z) :
  0 ≤ k →
  ∃ v, KMerTransformer.create_kmer_permutations k = Ok v
     ∧ ∀ x, x ∈ KGroupKMerTransformer.create_kgroup_kmer_permutations k
            ↔ ∃ w, w ∈ v ∧ KGroupKMerTransformer.window_key w = x.
Proof.
  intros Hk.
  destruct (create_kmer_permutations_spec k Hk) as (v & Hv & Hmem & _).
  exists v. split; [done|]. intros x. split.
  - destruct x as [[[a c] t] g]. intros Hx.
    apply (elem_of_create_kgroup k a c t g) in Hx as (Ha & Hc & Hg & Ht & <-).
    destruct (word_of_composition a c g t) as (w & Hw & Hkey); [done..|].
    exists w. split; [by apply Hmem|done].
  - intros (w & Hw & <-). by apply window_key_in_vocabulary, Hmem.
Qed.

Lemma grouped_vocabulary_is_image_of_exact_vocabulary_witness :
  0 ≤ 2
  ∧ ∃ v, KMerTransformer.create_kmer_permutations 2 = Ok v
     ∧ ∀ x, x ∈ KGroupKMerTransformer.create_kgroup_kmer_permutations 2
            ↔ ∃ w, w ∈ v ∧ KGroupKMerTransformer.window_key w = x.
Proof.
  assert (0 ≤ 2) as H by lia.
  split; [exact H|].
  exact (grouped_vocabulary_is_image_of_exact_vocabulary 2 H).
Defined.

(** * The table-level [transform] and [fit_transform] *)

Section SeriesApply.
Context {A B : Type}.
Implicit Types (f : A → result B) (xs : list A).

Lemma series_apply_ok f xs (P : A → B → Prop) :
  (∀ x, x ∈ xs → ∃ y, f x = Ok y ∧ P x y) →
  ∃ ys, series_apply f xs = Ok ys ∧ Forall2 P xs ys.
Proof.
  induction xs as [|x xs IH]; intros Hall.
  - exists []. by split.
  - destruct (Hall x) as (y & Hy & HP); [left|].
    destruct IH as (ys & Hys & HF); [intros x' Hx'; apply Hall; by right|].
    exists (y :: ys). simpl. rewrite Hy, Hys. by split; [|constructor].
Qed.

Lemma series_apply_raise f xs e x :
  x ∈ xs → f x = Raise e →
  (∀ x', x' ∈ xs → f x' = Raise e ∨ ∃ y, f x' = Ok y) →
  series_apply f xs = Raise e.
Proof.
  induction xs as [|x' xs IH]; intros Hx Hfx Hall.
  - by apply elem_of_nil in Hx.
  - simpl. destruct (Hall x') as [->|[y Hy]]; [left|done|].
    rewrite Hy. simpl. apply elem_of_cons in Hx as [->|Hx]; [congruence|].
    rewrite IH; [done..|]. intros x'' Hx''. apply Hall. by right.
Qed.

End SeriesApply.

Lemma Forall2_right_Forall {A B} (P : A → B → Prop) (Q : B → Prop)
    (l : list A) (k : list B) :
  Forall2 P l k → (∀ x y, P x y → Q y) → Forall Q k.
Proof. induction 1; intros HPQ; constructor; eauto. Qed.

Section TableColumns.
Context {I K : Type} `{EqDecision K}.

Lemma filter_not_elem_of_nil (l : list K) : filter (λ x, x ∉ []) l = l.
Proof.
  induction l as [|x l IH]; [done|].
  rewrite filter_cons_True by apply not_elem_of_nil. by rewrite IH.
Qed.

Lemma filter_not_elem_of_self (l l' : list K) :
  (∀ x, x ∈ l → x ∈ l') → filter (λ x, x ∉ l') l = [].
Proof.
  induction l as [|x l IH]; intros Hsub; [done|].
  rewrite filter_cons_False by (intros Hx; apply Hx, Hsub; left).
  apply IH. intros y Hy. apply Hsub. by right.
Qed.

(** When every row has the key list [v], the frame has the columns [v], in
    that order, unless it has no row. *)
Lemma table_columns_uniform (rows : list (dict K)) (index : list I) (v : list K) :
  Forall (λ row, keys row = v) rows →
  table_columns (DataFrame rows index) = if decide (rows = []) then [] else v.
Proof.
  unfold table_columns. simpl. intros Hrows.
  destruct Hrows as [|row rows Hrow Hrows]; [done|].
  rewrite decide_False by done. simpl.
  rewrite Hrow, filter_not_elem_of_nil.
  induction Hrows as [|row' rows Hrow' _ IH]; [done|].
  simpl. rewrite Hrow', filter_not_elem_of_self, app_nil_r by done. apply IH.
Qed.

End TableColumns.

Section TransformTable.
Context {I : Type}.
Implicit Types (X : dataset I) (seqs : list string).

(** The per-sequence transforms read [self] for its normalize flag only. *)
Lemma exact_transform_same_flag (s1 s2 : KMerTransformer.t) seq k perms :
  KMerTransformer.normalize s1 = KMerTransformer.normalize s2 →
  KMerTransformer.kmer_transform_seq s1 seq k perms
  = KMerTransformer.kmer_transform_seq s2 seq k perms.
Proof. intros E. by rewrite !exact_transform_loop, E. Qed.

Lemma grouped_transform_same_flag (s1 s2 : KGroupKMerTransformer.t) seq k perms :
  KGroupKMerTransformer.normalize s1 = KGroupKMerTransformer.normalize s2 →
  KGroupKMerTransformer.kmer_transform_seq s1 seq k perms
  = KGroupKMerTransformer.kmer_transform_seq s2 seq k perms.
Proof. intros E. by rewrite !grouped_transform_loop, E. Qed.

(** [transform] once the column and the vocabulary are there. *)
Lemma exact_transform_unfold (se : KMerTransformer.t) X seqs perms :
  ds_columns X !! "seq" = Some seqs →
  KMerTransformer.kmer_perms se = Some perms →
  KMerTransformer.transform se X
  = bind (series_apply
            (λ x, KMerTransformer.kmer_transform_seq se x (KMerTransformer.k se) perms)
            seqs)
         (λ rows, Ok (DataFrame rows (ds_index X))).
Proof.
  intros Hcol Hperms.
  unfold KMerTransformer.transform, getitem_series, KMerTransformer.get_kmer_perms.
  rewrite Hcol, Hperms. simpl. by destruct (KMerTransformer.verbose se).
Qed.

Lemma grouped_transform_unfold (sg : KGroupKMerTransformer.t) X seqs perms :
  ds_columns X !! "seq" = Some seqs →
  KGroupKMerTransformer.kmer_perms sg = Some perms →
  KGroupKMerTransformer.transform sg X
  = bind (series_apply
            (λ x, KGroupKMerTransformer.kmer_transform_seq sg x
                    (KGroupKMerTransformer.k sg) perms)
            seqs)
         (λ rows, Ok (DataFrame rows (ds_index X))).
Proof.
  intros Hcol Hperms.
  unfold KGroupKMerTransformer.transform, getitem_series,
    KGroupKMerTransformer.get_kmer_perms.
  rewrite Hcol, Hperms. simpl. by destruct (KGroupKMerTransformer.verbose sg).
Qed.

End TransformTable.

Section FitTransform.
Context {I : Type}.
Implicit Types (X : dataset I) (seqs : list string).

(** X8. For [k >= 1] and an input frame whose [seq] column holds sequences
    over A, C, G, T, the exact [fit_transform] returns a table with the
    index of the input and one row per sequence, in order, each row being
    the per-sequence transform of its sequence against the fitted
    vocabulary; the columns of the table are the vocabulary, in vocabulary
    order, except that a frame without rows gives a table without
    columns. *)
Theorem exact_fit_transform_table (se : KMerTransformer.t) X seqs :
  1 ≤ KMerTransformer.k se →
  ds_columns X !! "seq" = Some seqs →
  Forall (λ seq, Forall (λ c, c ∈ bases) (chars seq)) seqs →
  ∃ v tb,
    KMerTransformer.create_kmer_permutations (KMerTransformer.k se) = Ok v
    ∧ KMerTransformer.fit_transform se X = Ok tb
    ∧ tb_index tb = ds_index X
    ∧ Forall2 (λ seq row,
                 KMerTransformer.kmer_transform_seq se seq (KMerTransformer.k se) v
                 = Ok row)
        seqs (tb_rows tb)
    ∧ table_columns tb = if decide (seqs = []) then [] else v.
Proof.
  intros Hk Hcol Hseqs. rewrite Forall_forall in Hseqs.
  destruct (create_kmer_permutations_spec (KMerTransformer.k se))
    as (v & Hv & _ & Hnd & _); [lia|].
  set (se' := KMerTransformer.mk (KMerTransformer.k se)
                (KMerTransformer.normalize se) (KMerTransformer.verbose se) (Some v)).
  destruct (series_apply_ok
              (λ x, KMerTransformer.kmer_transform_seq se' x (KMerTransformer.k se) v)
              seqs
              (λ seq row,
                 KMerTransformer.kmer_transform_seq se seq (KMerTransformer.k se) v
                 = Ok row ∧ keys row = v))
    as (rows & Hrows & HF).
  { intros seq Hseq.
    destruct (exact_transform_run se seq (KMerTransformer.k se))
      as (v' & row & Hv' & _ & _ & Hrun & Hkeys & _); [lia|lia|by apply Hseqs|].
    assert (v' = v) as -> by congruence.
    exists row. split_and!; [|done..].
    by rewrite (exact_transform_same_flag se' se). }
  exists v, (DataFrame rows (ds_index X)). split_and!; [done| |done|..].
  - unfold KMerTransformer.fit_transform, KMerTransformer.fit. rewrite Hv. simpl.
    fold se'. rewrite (exact_transform_unfold se' X seqs v) by done.
    simpl. by rewrite Hrows.
  - eapply Forall2_impl; [exact HF|]. by intros seq row [? _].
  - rewrite (table_columns_uniform rows (ds_index X) v).
    + destruct HF; by repeat case_decide.
    + eapply Forall2_right_Forall; [exact HF|]. by intros seq row [_ ?].
Qed.

(** X9. The same for the grouped [fit_transform], for [k >= 1] and
    sequences over A, C, G, T: one row per sequence, in order, under the
    index of the input, and the composition keys as columns, in the order
    of the enumeration (no column for a frame without rows). *)
Theorem grouped_fit_transform_table (sg : KGroupKMerTransformer.t) X seqs :
  1 ≤ KGroupKMerTransformer.k sg →
  ds_columns X !! "seq" = Some seqs →
  Forall (λ seq, Forall (λ c, c ∈ bases) (chars seq)) seqs →
  ∃ tb,
    KGroupKMerTransformer.fit_transform sg X = Ok tb
    ∧ tb_index tb = ds_index X
    ∧ Forall2 (λ seq row,
                 KGroupKMerTransformer.kmer_transform_seq sg seq
                   (KGroupKMerTransformer.k sg)
                   (KGroupKMerTransformer.create_kgroup_kmer_permutations
                      (KGroupKMerTransformer.k sg))
                 = Ok row)
        seqs (tb_rows tb)
    ∧ table_columns tb
      = if decide (seqs = []) then []
        else KGroupKMerTransformer.create_kgroup_kmer_permutations
               (KGroupKMerTransformer.k sg).
Proof.
  intros Hk Hcol Hseqs. rewrite Forall_forall in Hseqs.
  set (v := KGroupKMerTransformer.create_kgroup_kmer_permutations
              (KGroupKMerTransformer.k sg)).
  set (sg' := KGroupKMerTransformer.mk (KGroupKMerTransformer.k sg)
                (KGroupKMerTransformer.normalize sg)
                (KGroupKMerTransformer.verbose sg) (Some v)).
  destruct (series_apply_ok
              (λ x, KGroupKMerTransformer.kmer_transform_seq sg' x
                      (KGroupKMerTransformer.k sg) v)
              seqs
              (λ seq row,
                 KGroupKMerTransformer.kmer_transform_seq sg seq
                   (KGroupKMerTransformer.k sg) v = Ok row ∧ keys row = v))
    as (rows & Hrows & HF).
  { intros seq Hseq.
    destruct (grouped_transform_run sg seq (KGroupKMerTransformer.k sg))
      as (row & Hrun & Hkeys & _); [lia|lia|by apply Hseqs|].
    exists row. split_and!; [|done..].
    by rewrite (grouped_transform_same_flag sg' sg). }
  exists (DataFrame rows (ds_index X)). split_and!; [|done|..].
  - unfold KGroupKMerTransformer.fit_transform, KGroupKMerTransformer.fit. simpl.
    fold v sg'. rewrite (grouped_transform_unfold sg' X seqs v) by done.
    simpl. by rewrite Hrows.
  - eapply Forall2_impl; [exact HF|]. by intros seq row [? _].
  - rewrite (table_columns_uniform rows (ds_index X) v).
    + destruct HF; by repeat case_decide.
    + eapply Forall2_right_Forall; [exact HF|]. by intros seq row [_ ?].
Qed.

End FitTransform.

Lemma exact_fit_transform_table_witness :
  (1 ≤ KMerTransformer.k (KMerTransformer.mk 2 false true None)
   ∧ ds_columns example_dataset !! "seq" = Some ["ACGT"; "AAC"]
   ∧ Forall (λ seq, Forall (λ c, c ∈ bases) (chars seq)) ["ACGT"; "AAC"])
  ∧ ∃ v tb,
    KMerTransformer.create_kmer_permutations
      (KMerTransformer.k (KMerTransformer.mk 2 false true None)) = Ok v
    ∧ KMerTransformer.fit_transform (KMerTransformer.mk 2 false true None)
        example_dataset = Ok tb
    ∧ tb_index tb = ds_index example_dataset
    ∧ Forall2 (λ seq row,
                 KMerTransformer.kmer_transform_seq
                   (KMerTransformer.mk 2 false true None) seq
                   (KMerTransformer.k (KMerTransformer.mk 2 false true None)) v
                 = Ok row)
        ["ACGT"; "AAC"] (tb_rows tb)
    ∧ table_columns tb = if decide (["ACGT"; "AAC"] = []) then [] else v.
Proof.
  assert (1 ≤ KMerTransformer.k (KMerTransformer.mk 2 false true None)) as H1
    by (simpl; lia).
  assert (ds_columns example_dataset !! "seq" = Some ["ACGT"; "AAC"]) as H2
    by (vm_compute; reflexivity).
  assert (Forall (λ seq, Forall (λ c, c ∈ bases) (chars seq)) ["ACGT"; "AAC"])
    as H3 by (apply (bool_decide_unpack _); vm_compute; reflexivity).
  split; [by split_and!|].
  exact (exact_fit_transform_table
           (KMerTransformer.mk 2 false true None) example_dataset
           ["ACGT"; "AAC"] H1 H2 H3).
Defined.

Lemma grouped_fit_transform_table_witness :
  (1 ≤ KGroupKMerTransformer.k (KGroupKMerTransformer.mk 2 false true None)
   ∧ ds_columns example_dataset !! "seq" = Some ["ACGT"; "AAC"]
   ∧ Forall (λ seq, Forall (λ c, c ∈ bases) (chars seq)) ["ACGT"; "AAC"])
  ∧ ∃ tb,
    KGroupKMerTransformer.fit_transform
      (KGroupKMerTransformer.mk 2 false true None) example_dataset = Ok tb
    ∧ tb_index tb = ds_index example_dataset
    ∧ Forall2 (λ seq row,
                 KGroupKMerTransformer.kmer_transform_seq
                   (KGroupKMerTransformer.mk 2 false true None) seq
                   (KGroupKMerTransformer.k
                      (KGroupKMerTransformer.mk 2 false true None))
                   (KGroupKMerTransformer.create_kgroup_kmer_permutations
                      (KGroupKMerTransformer.k
                         (KGroupKMerTransformer.mk 2 false true None)))
                 = Ok row)
        ["ACGT"; "AAC"] (tb_rows tb)
    ∧ table_columns tb
      = if decide (["ACGT"; "AAC"] = []) then []
        else KGroupKMerTransformer.create_kgroup_kmer_permutations
               (KGroupKMerTransformer.k
                  (KGroupKMerTransformer.mk 2 false true None)).
Proof.
  assert (1 ≤ KGroupKMerTransformer.k
                (KGroupKMerTransformer.mk 2 false true None)) as H1
    by (simpl; lia).
  assert (ds_columns example_dataset !! "seq" = Some ["ACGT"; "AAC"]) as H2
    by (vm_compute; reflexivity).
  assert (Forall (λ seq, Forall (λ c, c ∈ bases) (chars seq)) ["ACGT"; "AAC"])
    as H3 by (apply (bool_decide_unpack _); vm_compute; reflexivity).
  split; [by split_and!|].
  exact (grouped_fit_transform_table
           (KGroupKMerTransformer.mk 2 false true None) example_dataset
           ["ACGT"; "AAC"] H1 H2 H3).
Defined.

Section TransformErrors.
Context {I : Type}.
Implicit Types (X : dataset I) (seqs : list string).

(** X10. [transform] before [fit].  The [seq] column is read first, so a
    frame without it gives [KeyError]; the missing vocabulary is noticed
    only when the first cell is processed, so a frame with at least one row
    gives [AttributeError], and a frame without rows gives a table without
    rows.  This holds for both transformers. *)
Theorem transform_before_fit
    (se : KMerTransformer.t) (sg : KGroupKMerTransformer.t) X :
  KMerTransformer.kmer_perms se = None →
  KGroupKMerTransformer.kmer_perms sg = None →
  KMerTransformer.transform se X
  = match ds_columns X !! "seq" with
    | None => Raise KeyError
    | Some [] => Ok (DataFrame [] (ds_index X))
    | Some (_ :: _) => Raise AttributeError
    end
  ∧ KGroupKMerTransformer.transform sg X
    = match ds_columns X !! "seq" with
      | None => Raise KeyError
      | Some [] => Ok (DataFrame [] (ds_index X))
      | Some (_ :: _) => Raise AttributeError
      end.
Proof.
  intros He Hg. split.
  - unfold KMerTransformer.transform, getitem_series,
      KMerTransformer.get_kmer_perms. rewrite He.
    destruct (ds_columns X !! "seq") as [[|seq seqs]|];
      by destruct (KMerTransformer.verbose se).
  - unfold KGroupKMerTransformer.transform, getitem_series,
      KGroupKMerTransformer.get_kmer_perms. rewrite Hg.
    destruct (ds_columns X !! "seq") as [[|seq seqs]|];
      by destruct (KGroupKMerTransformer.verbose sg).
Qed.

(** X11. One bad cell loses the whole table.  For [k >= 1], when some
    sequence of the [seq] column has a character outside A, C, G, T in one
    of its counted windows, [fit_transform] raises [KeyError], in exact and
    in grouped mode, wherever that sequence stands in the column and
    whatever the other sequences are. *)
Theorem foreign_character_fails_fit_transform
    (se : KMerTransformer.t) (sg : KGroupKMerTransformer.t)
    X seqs (seq : string) (k i : Z) :
  1 ≤ k →
  KMerTransformer.k se = k →
  KGroupKMerTransformer.k sg = k →
  ds_columns X !! "seq" = Some seqs →
  seq ∈ seqs →
  0 ≤ i < len seq - k →
  ¬ Forall (λ c, c ∈ bases) (chars (slice seq i (i + k))) →
  KMerTransformer.fit_transform se X = Raise KeyError
  ∧ KGroupKMerTransformer.fit_transform sg X = Raise KeyError.
Proof.
  intros Hk Hke Hkg Hcol Hseq Hi Hforeign. split.
  - destruct (create_kmer_permutations_spec k) as (v & Hv & Hmem & _); [lia|].
    unfold KMerTransformer.fit_transform, KMerTransformer.fit.
    rewrite Hke, Hv. simpl.
    rewrite (exact_transform_unfold _ X seqs v) by done. simpl.
    rewrite (series_apply_raise _ seqs KeyError seq); [done..| |].
    + rewrite exact_transform_loop.
      apply (counting_run_keyerror (window seq k) _ _ _ _ i); [lia|done|].
      by intros [_ ?]%Hmem.
    + intros x _. rewrite exact_transform_loop.
      pose proof (counting_run_outcome (window x k)
                    (KMerTransformer.normalize se) x (len x - k) v) as Hout.
      simpl in *. destruct (counting_loop _ _ _ _) as [row|e].
      * right. by exists row.
      * left. destruct Hout as [-> _]; [lia|done].
  - unfold KGroupKMerTransformer.fit_transform, KGroupKMerTransformer.fit.
    rewrite Hkg. simpl.
    rewrite (grouped_transform_unfold _ X seqs
               (KGroupKMerTransformer.create_kgroup_kmer_permutations k)) by done.
    simpl. rewrite (series_apply_raise _ seqs KeyError seq); [done..| |].
    + rewrite grouped_transform_loop.
      apply (counting_run_keyerror
               (λ j, KGroupKMerTransformer.window_key (window seq k j))
               _ _ _ _ i); [lia|done|].
      assert (len (window seq k i) = k) as Hlen
        by (unfold window; apply len_slice; lia).
      rewrite <-Hlen at 2. by apply window_key_not_in_vocabulary.
    + intros x _. rewrite grouped_transform_loop.
      pose proof (counting_run_outcome
                    (λ j, KGroupKMerTransformer.window_key (window x k j))
                    (KGroupKMerTransformer.normalize sg) x (len x - k)
                    (KGroupKMerTransformer.create_kgroup_kmer_permutations k))
        as Hout.
      simpl in *. destruct (counting_loop _ _ _ _) as [row|e].
      * right. by exists row.
      * left. destruct Hout as [-> _]; [lia|done].
Qed.

(** X12. A negative [k] is noticed at different places.  The exact
    [fit_transform] raises the [ValueError] of the permutation generator
    whatever the input frame, before the frame is read.  The grouped [fit]
    succeeds with an empty vocabulary, and the grouped [fit_transform] then
    raises [KeyError] as soon as the frame has a row, whatever its
    sequences; only a frame without rows gives a (rowless) table. *)
Theorem negative_k_fit_transform
    (se : KMerTransformer.t) (sg : KGroupKMerTransformer.t) X :
  KMerTransformer.k se < 0 →
  KGroupKMerTransformer.k sg < 0 →
  KMerTransformer.fit_transform se X = Raise ValueError
  ∧ KGroupKMerTransformer.fit_transform sg X
    = match ds_columns X !! "seq" with
      | None => Raise KeyError
      | Some [] => Ok (DataFrame [] (ds_index X))
      | Some (_ :: _) => Raise KeyError
      end.
Proof.
  intros Hke Hkg. split.
  - unfold KMerTransformer.fit_transform, KMerTransformer.fit,
      KMerTransformer.create_kmer_permutations, permutations.
    by rewrite decide_True by done.
  - unfold KGroupKMerTransformer.fit_transform, KGroupKMerTransformer.fit.
    assert (KGroupKMerTransformer.create_kgroup_kmer_permutations
              (KGroupKMerTransformer.k sg) = []) as ->.
    { unfold KGroupKMerTransformer.create_kgroup_kmer_permutations, range.
      by rewrite seqZ_nil by lia. }
    simpl. destruct (ds_columns X !! "seq") as [[|seq seqs]|] eqn:Hcol.
    + rewrite (grouped_transform_unfold _ X [] []) by done. done.
    + rewrite (grouped_transform_unfold _ X (seq :: seqs) []) by done.
      simpl. rewrite grouped_transform_loop. unfold range.
      assert (0 ≤ len seq) by (unfold len; lia).
      rewrite seqZ_cons by lia. done.
    + unfold KGroupKMerTransformer.transform, getitem_series. by rewrite Hcol.
Qed.

End TransformErrors.

Lemma transform_before_fit_witness :
  (KMerTransformer.kmer_perms (KMerTransformer.mk 2 false true None) = None
   ∧ KGroupKMerTransformer.kmer_perms
       (KGroupKMerTransformer.mk 2 false true None) = None)
  ∧ (KMerTransformer.transform (KMerTransformer.mk 2 false true None)
       example_dataset
     = match ds_columns example_dataset !! "seq" with
       | None => Raise KeyError
       | Some [] => Ok (DataFrame [] (ds_index example_dataset))
       | Some (_ :: _) => Raise AttributeError
       end
     ∧ KGroupKMerTransformer.transform
         (KGroupKMerTransformer.mk 2 false true None) example_dataset
       = match ds_columns example_dataset !! "seq" with
         | None => Raise KeyError
         | Some [] => Ok (DataFrame [] (ds_index example_dataset))
         | Some (_ :: _) => Raise AttributeError
         end).
Proof.
  split; [by split|].
  exact (transform_before_fit
           (KMerTransformer.mk 2 false true None)
           (KGroupKMerTransformer.mk 2 false true None)
           example_dataset eq_refl eq_refl).
Defined.

Lemma foreign_character_fails_fit_transform_witness :
  (1 ≤ 2
   ∧ KMerTransformer.k (KMerTransformer.mk 2 false true None) = 2
   ∧ KGroupKMerTransformer.k (KGroupKMerTransformer.mk 2 false true None) = 2
   ∧ ds_columns example_dataset_foreign !! "seq" = Some ["ACGT"; "ANAA"]
   ∧ "ANAA" ∈ ["ACGT"; "ANAA"]
   ∧ (0 ≤ 0 < len "ANAA" - 2)
   ∧ ¬ Forall (λ c, c ∈ bases) (chars (slice "ANAA" 0 (0 + 2))))
  ∧ (KMerTransformer.fit_transform (KMerTransformer.mk 2 false true None)
       example_dataset_foreign = Raise KeyError
     ∧ KGroupKMerTransformer.fit_transform
         (KGroupKMerTransformer.mk 2 false true None) example_dataset_foreign
       = Raise KeyError).
Proof.
  assert (1 ≤ 2) as H1 by lia.
  assert (ds_columns example_dataset_foreign !! "seq" = Some ["ACGT"; "ANAA"])
    as H2 by (vm_compute; reflexivity).
  assert ("ANAA" ∈ ["ACGT"; "ANAA"]) as H3 by (right; left).
  assert (0 ≤ 0 < len "ANAA" - 2) as H4
    by (vm_compute; split; [discriminate|reflexivity]).
  assert (¬ Forall (λ c, c ∈ bases) (chars (slice "ANAA" 0 (0 + 2)))) as H5
    by (apply (bool_decide_unpack _); vm_compute; reflexivity).
  split; [by split_and!|].
  exact (foreign_character_fails_fit_transform
           (KMerTransformer.mk 2 false true None)
           (KGroupKMerTransformer.mk 2 false true None)
           example_dataset_foreign ["ACGT"; "ANAA"] "ANAA" 2 0
           H1 eq_refl eq_refl H2 H3 H4 H5).
Defined.

Lemma negative_k_fit_transform_witness :
  (KMerTransformer.k (KMerTransformer.mk (-1) false true None) < 0
   ∧ KGroupKMerTransformer.k (KGroupKMerTransformer.mk (-1) false true None) < 0)
  ∧ (KMerTransformer.fit_transform (KMerTransformer.mk (-1) false true None)
       example_dataset = Raise ValueError
     ∧ KGroupKMerTransformer.fit_transform
         (KGroupKMerTransformer.mk (-1) false true None) example_dataset
       = match ds_columns example_dataset !! "seq" with
         | None => Raise KeyError
         | Some [] => Ok (DataFrame [] (ds_index example_dataset))
         | Some (_ :: _) => Raise KeyError
         end).
Proof.
  assert (KMerTransformer.k (KMerTransformer.mk (-1) false true None) < 0) as H1
    by (simpl; lia).
  assert (KGroupKMerTransformer.k
            (KGroupKMerTransformer.mk (-1) false true None) < 0) as H2
    by (simpl; lia).
  split; [by split|].
  exact (negative_k_fit_transform
           (KMerTransformer.mk (-1) false true None)
           (KGroupKMerTransformer.mk (-1) false true None)
           example_dataset H1 H2).
Defined.

(** * Further properties of the column pruner *)

Section PrunerMore.
Context {L : Type} `{EqDecision L}.
Implicit Types (X T : KGroupColumnPruner.frame L) (l : L) (cells : list Qc).

(** Selecting a label that no column carries. *)
Lemma getitem_columns_missing X (labels : list L) l :
  l ∈ labels → l ∉ KGroupColumnPruner.columns X →
  KGroupColumnPruner.getitem_columns X labels = Raise KeyError.
Proof.
  intros Hl Hmiss. induction labels as [|l' labels IH].
  - by apply elem_of_nil in Hl.
  - simpl. destruct (filter (λ col, col.1 = l') X) as [|col cols] eqn:Hf; [done|].
    apply elem_of_cons in Hl as [->|Hl].
    + by rewrite filter_label_absent in Hf.
    + by rewrite IH.
Qed.

Lemma loc_any_positive_idemp T :
  KGroupColumnPruner.loc_any_positive (KGroupColumnPruner.loc_any_positive T)
  = KGroupColumnPruner.loc_any_positive T.
Proof.
  unfold KGroupColumnPruner.loc_any_positive.
  rewrite list_filter_filter. apply list_filter_iff. tauto.
Qed.

Lemma fit_transform_distinct T (self : KGroupColumnPruner.t L) :
  NoDup (KGroupColumnPruner.columns T) →
  KGroupColumnPruner.fit_transform self T
  = Ok (KGroupColumnPruner.loc_any_positive T).
Proof.
  intros Hnd. unfold KGroupColumnPruner.fit_transform,
    KGroupColumnPruner.transform. simpl.
  apply getitem_columns_own; [done|].
  intros col [_ ?]%list_elem_of_filter. done.
Qed.

(** X13. A fitted pruner insists on its columns: when the reference table
    has a column with a strictly positive value whose label the table
    handed to [transform] does not carry, [transform] raises [KeyError];
    and a pruner that was never fitted raises [AttributeError]. *)
Theorem pruner_transform_missing_column
    (self : KGroupColumnPruner.t L) T X l cells (v : Qc) :
  (l, cells) ∈ T → v ∈ cells → (0 < v)%Qc →
  l ∉ KGroupColumnPruner.columns X →
  KGroupColumnPruner.transform (KGroupColumnPruner.fit self T) X = Raise KeyError
  ∧ KGroupColumnPruner.transform (KGroupColumnPruner.init (L := L) true) X
    = Raise AttributeError.
Proof.
  intros Hcol Hv Hpos Hmiss. split; [|done].
  unfold KGroupColumnPruner.transform. simpl.
  apply (getitem_columns_missing X _ l); [|done].
  apply list_elem_of_fmap. exists (l, cells). split; [done|].
  apply list_elem_of_filter. split; [|done]. simpl.
  apply any_positive_true. eauto.
Qed.

(** X14. Pruning is idempotent.  On a table with distinct column labels,
    [fit_transform] succeeds, its result again has distinct labels, and
    pruning the result once more, with any pruner, returns it unchanged. *)
Theorem pruner_fit_transform_idempotent
    (self self' : KGroupColumnPruner.t L) T :
  NoDup (KGroupColumnPruner.columns T) →
  ∃ T', KGroupColumnPruner.fit_transform self T = Ok T'
      ∧ NoDup (KGroupColumnPruner.columns T')
      ∧ KGroupColumnPruner.fit_transform self' T' = Ok T'.
Proof.
  intros Hnd. exists (KGroupColumnPruner.loc_any_positive T).
  assert (NoDup (KGroupColumnPruner.columns (KGroupColumnPruner.loc_any_positive T)))
    as Hnd'.
  { apply (sublist_NoDup _ (KGroupColumnPruner.columns T)); [exact Hnd|].
    unfold KGroupColumnPruner.columns, KGroupColumnPruner.loc_any_positive.
    apply sublist_fmap_sublist, sublist_filter. }
  split_and!; [by apply fit_transform_distinct|done|].
  rewrite fit_transform_distinct by done. by rewrite loc_any_positive_idemp.
Qed.

End PrunerMore.

Lemma pruner_transform_missing_column_witness :
  (("AA", [Qc_of_Z 0; Qc_of_Z 3]) ∈ example_table
   ∧ Qc_of_Z 3 ∈ [Qc_of_Z 0; Qc_of_Z 3]
   ∧ (0 < Qc_of_Z 3)%Qc
   ∧ "AA" ∉ KGroupColumnPruner.columns [("TT", [Qc_of_Z 1])])
  ∧ (KGroupColumnPruner.transform
       (KGroupColumnPruner.fit (KGroupColumnPruner.init true) example_table)
       [("TT", [Qc_of_Z 1])] = Raise KeyError
     ∧ KGroupColumnPruner.transform (KGroupColumnPruner.init (L := string) true)
         [("TT", [Qc_of_Z 1])]
       = Raise AttributeError).
Proof.
  assert (("AA", [Qc_of_Z 0; Qc_of_Z 3]) ∈ example_table) as H1 by left.
  assert (Qc_of_Z 3 ∈ [Qc_of_Z 0; Qc_of_Z 3]) as H2 by (right; left).
  assert (0 < Qc_of_Z 3)%Qc as H3 by reflexivity.
  assert ("AA" ∉ KGroupColumnPruner.columns [("TT", [Qc_of_Z 1])]) as H4
    by (apply (bool_decide_unpack _); vm_compute; reflexivity).
  split; [by split_and!|].
  exact (pruner_transform_missing_column (KGroupColumnPruner.init true)
           example_table [("TT", [Qc_of_Z 1])] "AA" [Qc_of_Z 0; Qc_of_Z 3]
           (Qc_of_Z 3) H1 H2 H3 H4).
Defined.

Lemma pruner_fit_transform_idempotent_witness :
  NoDup (KGroupColumnPruner.columns example_table)
  ∧ ∃ T', KGroupColumnPruner.fit_transform (KGroupColumnPruner.init true)
            example_table = Ok T'
      ∧ NoDup (KGroupColumnPruner.columns T')
      ∧ KGroupColumnPruner.fit_transform (KGroupColumnPruner.init false) T'
        = Ok T'.
Proof.
  assert (NoDup (KGroupColumnPruner.columns example_table)) as Hnd
    by (apply (bool_decide_unpack _); vm_compute; reflexivity).
  split; [exact Hnd|].
  exact (pruner_fit_transform_idempotent (KGroupColumnPruner.init true)
           (KGroupColumnPruner.init false) example_table Hnd).
Defined.
